(** * EDA pipeline (functions.py): a shallow embedding and its properties

    The module under study is a four-stage batch job over an in-memory
    table: [load_dataset], [process_first_year_stats], [rename_header]
    and [save_outputs].  The embedding follows the Python text line by
    line.  Conventions:

    - text is ASCII; a Python [str] is a Rocq [string], handled as a list
      of characters inside the text routines;
    - a table is a header (the column names) and a list of rows; the rows
      of an input table carry the five mandatory fields with the types of
      the data model (text, integer year, numeric-or-malformed value);
    - numbers that pandas holds as floats are exact rationals ([Q]);
    - a function that returns the Python pair [(result, error)] returns
      the same pair of options here; exceptions inside a [try] block are
      values of type [exn] in a small error monad;
    - in-place mutation of the caller's table is made explicit by
      returning the table as the call leaves it;
    - the lines that the first three stages send to the log and the
      [timer] decorator do not influence any returned value and are left
      out; the log of [save_outputs] is part of its state. *)

From Stdlib Require Import Ascii String ZArith QArith Qround DecimalString DecimalZ DecimalPos.
From stdpp Require Import base option list sorting strings gmap.

Local Open Scope string_scope.
Local Open Scope Z_scope.
Local Open Scope list_scope.

(** ** Characters and text *)

Module Text.

Definition chars := list ascii.

Definition code (c : ascii) : nat := nat_of_ascii c.

(** Whitespace as [str.strip], [str.isspace] and the regex class [\s]
    see it on ASCII text: TAB, LF, VT, FF, CR, the four separators
    0x1c-0x1f and the space. *)
Definition is_space (c : ascii) : bool :=
  let n := code c in
  ((9 <=? n)%nat && (n <=? 13)%nat) || ((28 <=? n)%nat && (n <=? 32)%nat).

Definition is_upper (c : ascii) : bool :=
  let n := code c in (65 <=? n)%nat && (n <=? 90)%nat.

Definition is_lower (c : ascii) : bool :=
  let n := code c in (97 <=? n)%nat && (n <=? 122)%nat.

Definition is_digit (c : ascii) : bool :=
  let n := code c in (48 <=? n)%nat && (n <=? 57)%nat.

(** The regex class [\w] on ASCII text. *)
Definition is_word (c : ascii) : bool :=
  is_upper c || is_lower c || is_digit c || (code c =? 95)%nat.

Definition lower_char (c : ascii) : ascii :=
  if is_upper c then ascii_of_nat (code c + 32) else c.

(** [str.lower()] *)
Definition lower (s : chars) : chars := map lower_char s.

Fixpoint lstrip (s : chars) : chars :=
  match s with
  | c :: t => if is_space c then lstrip t else s
  | [] => []
  end.

Definition rstrip (s : chars) : chars := reverse (lstrip (reverse s)).

(** [str.strip()] *)
Definition strip (s : chars) : chars := rstrip (lstrip s).

Definition of_string : string → chars := list_ascii_of_string.
Definition to_string : chars → string := string_of_list_ascii.

Definition str_lower (s : string) : string := to_string (lower (of_string s)).
Definition str_strip (s : string) : string := to_string (strip (of_string s)).

(** [needle in haystack] for Python strings. *)
Definition substring_of (needle hay : string) : Prop :=
  ∃ pre post, hay = pre +:+ needle +:+ post.

(** [str(n)] for a Python integer. *)
Definition str_of_Z (z : Z) : string := NilZero.string_of_int (Z.to_int z).

End Text.

(** ** The fragment of Python's [re] that the module uses

    Literals, alternation, sequencing, a greedy [+] over a character
    class, the zero-width assertions [\b] and [$], matched by
    backtracking with the priorities of [re]: the left alternative
    first, the longest repetition first. *)

Module Re.
Import Text.

Inductive regex : Type :=
| Eps
| Lit (c : ascii)
| Plus (cls : ascii → bool)
| Seq (r1 r2 : regex)
| Alt (r1 r2 : regex)
| WordB
| EndS.

Definition lit_str (s : string) : regex :=
  foldr (λ c r, Seq (Lit c) r) Eps (of_string s).

(** A literal under [re.IGNORECASE] compares case-folded characters. *)
Definition lit_match (icase : bool) (c x : ascii) : bool :=
  if icase then bool_decide (lower_char c = lower_char x)
  else bool_decide (c = x).

Definition word_opt (o : option ascii) : bool :=
  match o with Some c => is_word c | None => false end.

(** [\b]: exactly one side of the position is a word character. *)
Definition at_boundary (prev : option ascii) (aft : chars) : bool :=
  xorb (word_opt prev) (word_opt (head aft)).

(** [$] without [re.MULTILINE]: the end of the text, or just before a
    newline that ends the text. *)
Definition at_end (aft : chars) : bool :=
  match aft with
  | [] => true
  | [c] => bool_decide (c = "010"%char)
  | _ => false
  end.

Section Matcher.
Context {X : Type}.

(** A continuation receives the character before the position
    reached and the text that remains. *)
Definition cont := option ascii → chars → option X.

Fixpoint plus_greedy (cls : ascii → bool) (aft : chars) (k : cont) : option X :=
  match aft with
  | [] => None
  | x :: t =>
      if cls x then
        match plus_greedy cls t k with
        | Some r => Some r
        | None => k (Some x) t
        end
      else None
  end.

Fixpoint rmatch (icase : bool) (r : regex) (prev : option ascii) (aft : chars)
    (k : cont) : option X :=
  match r with
  | Eps => k prev aft
  | Lit c =>
      match aft with
      | x :: t => if lit_match icase c x then k (Some x) t else None
      | [] => None
      end
  | Plus cls => plus_greedy cls aft k
  | Seq r1 r2 => rmatch icase r1 prev aft (λ p a, rmatch icase r2 p a k)
  | Alt r1 r2 =>
      match rmatch icase r1 prev aft k with
      | Some x => Some x
      | None => rmatch icase r2 prev aft k
      end
  | WordB => if at_boundary prev aft then k prev aft else None
  | EndS => if at_end aft then k prev aft else None
  end.
End Matcher.

(** The match that starts at the current position, if any: the text
    left after it and the character before that text. *)
Definition match_here (icase : bool) (r : regex) (prev : option ascii) (aft : chars)
    : option (option ascii * chars) :=
  rmatch icase r prev aft (λ p a, Some (p, a)).

(** [re.search]: try every start position from the left. *)
Fixpoint search_from (icase : bool) (r : regex) (prev : option ascii) (aft : chars) : bool :=
  match match_here icase r prev aft with
  | Some _ => true
  | None =>
      match aft with
      | [] => false
      | x :: t => search_from icase r (Some x) t
      end
  end.

Definition search (icase : bool) (r : regex) (s : string) : bool :=
  search_from icase r None (of_string s).

(** [re.sub]: leftmost non-overlapping matches are replaced, the text
    between them is copied.  An empty match is replaced and the scan
    moves one character on.  [fuel] bounds the number of scan steps;
    [sub] starts with one more than the length of the text, which the
    scan cannot use up. *)
Fixpoint sub_go (fuel : nat) (r : regex) (repl : chars) (prev : option ascii)
    (aft : chars) : chars :=
  match fuel with
  | O => aft
  | S fuel' =>
      match match_here false r prev aft with
      | Some (p, rest) =>
          if bool_decide (length rest = length aft) then
            match aft with
            | [] => repl
            | x :: t => (repl ++ x :: sub_go fuel' r repl (Some x) t)%list
            end
          else (repl ++ sub_go fuel' r repl p rest)%list
      | None =>
          match aft with
          | [] => []
          | x :: t => x :: sub_go fuel' r repl (Some x) t
          end
      end
  end.

Definition sub_chars (r : regex) (repl : chars) (s : chars) : chars :=
  sub_go (S (length s)) r repl None s.

Definition sub (r : regex) (repl : string) (s : string) : string :=
  to_string (sub_chars r (of_string repl) (of_string s)).

End Re.

(** ** Tables *)

Record DataFrame (R : Type) : Type := mkDataFrame {
  columns : list string;
  rows : list R
}.
Arguments mkDataFrame {R} _ _.
Arguments columns {R} _.
Arguments rows {R} _.

Definition set_columns {R} (df : DataFrame R) (cols : list string) : DataFrame R :=
  mkDataFrame cols (rows df).

(** ** Exceptions caught by the [try] blocks

    [AmbiguousLabel] stands for the exception that pandas raises when a
    step needs one column and the label selects several; which exception
    that is depends on the step, and every one of them ends in the
    [except] branch. *)

Inductive exn : Type :=
| KeyError (key : string)
| ValueError (msg : string)
| AmbiguousLabel (label : string)
| IntCastingNaNError
| OSError (msg : string).

(** ** The error monad of a [try] block *)

Definition result (A : Type) : Type := (exn + A)%type.

Global Instance result_ret : MRet result := λ _ x, inr x.
Global Instance result_bind : MBind result := λ _ _ f m,
  match m with
  | inl e => inl e
  | inr x => f x
  end.

Definition raise {A} (e : exn) : result A := inl e.

(** [str(e)] for the exceptions above.  A [KeyError] prints the repr of
    its key; the text of [IntCastingNaNError] is the library's; the text
    for [AmbiguousLabel] is a placeholder, no property depends on it. *)
Definition error_message (e : exn) : string :=
  match e with
  | KeyError k => "'" +:+ k +:+ "'"
  | ValueError m => m
  | AmbiguousLabel l => "label '" +:+ l +:+ "' selects more than one column"
  | IntCastingNaNError => "Cannot convert non-finite values (NA or inf) to integer"
  | OSError m => m
  end.

(** ** Header Normalizer: [rename_header] *)

Module Rename.
Import Text Re.

(** [r"[\s,()]+"] *)
Definition sep_class (c : ascii) : bool :=
  is_space c || bool_decide (c = ","%char) || bool_decide (c = "("%char)
  || bool_decide (c = ")"%char).
Definition pat_separators : regex := Plus sep_class.

(** [r"_+"] *)
Definition underscore (c : ascii) : bool := bool_decide (c = "_"%char).
Definition pat_underscores : regex := Plus underscore.

(** [r"_+$"] *)
Definition pat_trailing : regex := Seq (Plus underscore) EndS.

(** The expression applied to each column name. *)
Definition rename_col (col : string) : string :=
  sub pat_trailing ""
    (sub pat_underscores "_"
      (sub pat_separators "_" (str_lower (str_strip col)))).

(** [rename_header(df)]; [None] stands for Python's [None] argument. *)
Definition rename_header {R} (df : option (DataFrame R))
    : option (DataFrame R) * option string :=
  match df with
  | None =>
      (None, Some ("Error renaming headers: " +:+
                   error_message (ValueError "No DataFrame provided for transformation.")))
  | Some d => (Some (set_columns d (map rename_col (columns d))), None)
  end.

End Rename.

(** ** Aggregator: [process_first_year_stats] *)

Module Stats.
Import Text Re.

(** A cell of the [value] column as [read_csv] leaves it. *)
Inductive value_cell : Type :=
| VNum (q : Q)
| VText (s : string)
| VNaN.

(** Raw record: one observation. *)
Record RawRecord : Type := mkRaw {
  statistic_label : string;
  year : Z;
  sex : string;
  unit_ : string;
  value : value_cell
}.

(** A cell of a result table. *)
Inductive cell : Type :=
| CStr (s : string)
| CInt (z : Z)
| CFloat (q : Q).

(** The text-to-number conversion inside [pd.to_numeric] is the
    library's; the module only relies on its outcome. *)
Class Numeric := { parse_number : string → option Q }.

(** [df.columns.str.strip().str.lower()] *)
Definition canonical_columns (cols : list string) : list string :=
  map (λ c, str_lower (str_strip c)) cols.

Definition count_label (name : string) (cols : list string) : nat :=
  length (filter (λ c, c = name) cols).

(** [df[name]] as the later steps use it: the label must select one
    column.  A missing label raises [KeyError]; a label carried by
    several columns selects a frame, on which the step that uses it
    raises. *)
Definition getitem (cols : list string) (name : string) : result () :=
  match count_label name cols with
  | O => raise (KeyError name)
  | 1%nat => mret ()
  | _ => raise (AmbiguousLabel name)
  end.

(** [df[name] = series]: a new label is appended, a label carried by
    one column is overwritten; with several columns of that name the
    steps that read the label back raise. *)
Definition setitem (cols : list string) (name : string) : result (list string) :=
  match count_label name cols with
  | O => mret (cols ++ [name])%list
  | 1%nat => mret cols
  | _ => raise (AmbiguousLabel name)
  end.

(** [r"\b(first year|1st year)\b"] *)
Definition pattern : regex :=
  Seq WordB (Seq (Alt (lit_str "first year") (lit_str "1st year")) WordB).

(** [str.contains(pattern, case=False, na=False, regex=True)] on one label. *)
Definition contains_pattern (label : string) : bool := search true pattern label.

(** [{'M': 'Male', 'F': 'Female', 'Both': 'Both sexes'}] *)
Definition sex_names : gmap string string :=
  {[ "M" := "Male"; "F" := "Female"; "Both" := "Both sexes" ]}.

(** [Series.replace(dict)] on one cell. *)
Definition replace (m : gmap string string) (s : string) : string :=
  default s (m !! s).

(** [pd.to_numeric(..., errors='coerce')] on one cell; [None] is NaN. *)
Definition to_numeric `{Numeric} (v : value_cell) : option Q :=
  match v with
  | VNum q => Some q
  | VText s => parse_number s
  | VNaN => None
  end.

Definition fillna (d : Q) (o : option Q) : Q := default d o.

(** A row of the filtered copy once lines 65-71 have run. *)
Record Derived : Type := mkDerived {
  d_sex : string;
  d_unit : string;
  d_value : Q;
  year_group : Z;
  year_range : string
}.

Definition derive `{Numeric} (r : RawRecord) : Derived :=
  let g := (year r / 5) * 5 in
  {| d_sex := replace sex_names (sex r);
     d_unit := unit_ r;
     d_value := fillna 0 (to_numeric (value r));
     year_group := g;
     year_range := str_of_Z g +:+ "-" +:+ str_of_Z (g + 4) |}.

(** [df['unit'].str.lower() == 'number'] *)
Definition is_count (r : Derived) : bool :=
  bool_decide (str_lower (d_unit r) = "number").

(** [df['unit'].str.strip().str.lower().isin(['%', 'percentage'])] *)
Definition is_percent (r : Derived) : bool :=
  bool_decide (str_lower (str_strip (d_unit r)) ∈ ["%"; "percentage"]).

Definition key : Type := (string * string)%type.
Definition key_of (r : Derived) : key := (year_range r, d_sex r).

(** Keys are ordered as Python orders tuples of strings. *)
Definition key_le (a b : key) : Prop :=
  if decide (a.1 = b.1) then String.le a.2 b.2 else String.le a.1 b.1.
Global Instance key_le_dec : RelDecision key_le.
Proof. intros a b. unfold key_le. destruct (decide (a.1 = b.1)); apply _. Defined.

Definition sorted_unique (l : list string) : list string :=
  merge_sort String.le (remove_dups l).

Definition Qsum (l : list Q) : Q := foldr Qplus 0%Q l.
Definition Qmean (l : list Q) : Q := (Qsum l / inject_Z (Z.of_nat (length l)))%Q.

(** [groupby(['year_range', 'sex'], as_index=False)['value'].agg()]:
    one row per observed key, keys in ascending order. *)
Definition groupby (agg : list Q → Q) (rs : list Derived) : list (key * Q) :=
  map (λ k, (k, agg (map d_value (filter (λ r, key_of r = k) rs))))
      (merge_sort key_le (remove_dups (map key_of rs))).

(** A wide table: the column labels and, per index label, the cells. *)
Record Wide (A : Type) : Type := mkWide {
  w_columns : list string;
  w_rows : list (string * list A)
}.
Arguments mkWide {A} _ _.
Arguments w_columns {A} _.
Arguments w_rows {A} _.

Definition w_index {A} (w : Wide A) : list string := map fst (w_rows w).

Definition lookup_key (k : key) (summary : list (key * Q)) : option Q :=
  snd <$> head (filter (λ e, e.1 = k) summary).

(** [pivot(index='year_range', columns='sex', values='value')]: a cell
    without a summary row is missing. *)
Definition pivot (summary : list (key * Q)) : Wide (option Q) :=
  let idx := sorted_unique (map (λ e, e.1.1) summary) in
  let cols := sorted_unique (map (λ e, e.1.2) summary) in
  mkWide cols (map (λ b, (b, map (λ s, lookup_key (b, s) summary) cols)) idx).

Definition add_suffix {A} (suffix : string) (w : Wide A) : Wide A :=
  mkWide (map (λ c, c +:+ suffix) (w_columns w)) (w_rows w).

Definition wide_map {A B} (f : A → B) (w : Wide A) : Wide B :=
  mkWide (w_columns w) (map (λ r, (r.1, map f r.2)) (w_rows w)).

(** Rounding to the nearest integer, halves to the even neighbour. *)
Definition round_half_even (q : Q) : Z :=
  let f := Qfloor q in
  let twice := (2 * (q - inject_Z f))%Q in
  match (twice ?= 1)%Q with
  | Lt => f
  | Gt => f + 1
  | Eq => if Z.even f then f else f + 1
  end.

(** [round(decimals)] for [decimals] = 0 and 1. *)
Definition round0 (q : Q) : Q := inject_Z (round_half_even q).
Definition round1 (q : Q) : Q := (inject_Z (round_half_even (q * 10)) / 10)%Q.

(** [astype(int)] on one cell: truncation, and no integer for NaN. *)
Definition to_int (o : option Q) : result Z :=
  match o with
  | Some q => mret (if Qle_bool 0 q then Qfloor q else Qceiling q)
  | None => raise IntCastingNaNError
  end.

Definition astype_int (w : Wide (option Q)) : result (Wide Z) :=
  rs ← mapM (M := result) (λ r, cs ← mapM (M := result) to_int r.2; mret (r.1, cs)) (w_rows w);
  mret (mkWide (w_columns w) rs).

(** [pd.merge(left, right, on='year_range', how='inner').reset_index()]:
    the keys of the left table that the right table has, in the order
    of the left table. *)
Definition merge_inner (left : Wide Z) (right : Wide Q) : DataFrame (list cell) :=
  mkDataFrame
    ("year_range" :: w_columns left ++ w_columns right)%list
    (omap (λ l, r ← head (filter (λ r, r.1 = l.1) (w_rows right));
                Some (CStr l.1 :: map CInt l.2 ++ map CFloat r.2)%list)
          (w_rows left)).

Section Transform.
Context `{Numeric}.

(** Line 62: the rows kept by the label filter. *)
Definition first_year_rows (rs : list RawRecord) : list RawRecord :=
  filter (λ r, contains_pattern (statistic_label r) = true) rs.

Definition df_counts (rs : list Derived) : list Derived :=
  filter (λ r, is_count r = true) rs.
Definition df_perc (rs : list Derived) : list Derived :=
  filter (λ r, is_percent r = true) rs.

(** Lines 78 and 83, 80 and 85: the two pivots. *)
Definition counts_pivot (rs : list Derived) : Wide (option Q) :=
  add_suffix "_count" (pivot (groupby Qsum (df_counts rs))).
Definition perc_pivot (rs : list Derived) : Wide (option Q) :=
  add_suffix "_percent" (pivot (groupby Qmean (df_perc rs))).

(** Line 88: [counts_wide.round(0).astype(int)] *)
Definition counts_wide (rs : list Derived) : result (Wide Z) :=
  astype_int (wide_map (fmap round0) (counts_pivot rs)).

(** Line 90: [perc_wide.fillna(0.0).round(1)] *)
Definition perc_wide (rs : list Derived) : Wide Q :=
  wide_map round1 (wide_map (fillna 0) (perc_pivot rs)).

(** Lines 62-90 of the [try] block, after the header has been
    canonicalised in place: the two tables that the merge receives. *)
Definition pivots (df : DataFrame RawRecord) : result (Wide Z * Wide Q) :=
  let cols := columns df in
  _ ← getitem cols "statistic label";
  let kept := first_year_rows (rows df) in
  _ ← getitem cols "sex";
  _ ← getitem cols "value";
  _ ← getitem cols "year";
  cols ← setitem cols "year_group";
  cols ← setitem cols "year_range";
  _ ← getitem cols "unit";
  let derived := map derive kept in
  cw ← counts_wide derived;
  mret (cw, perc_wide derived).

(** Lines 93-95: the merge and the value returned. *)
Definition transform (df : DataFrame RawRecord) : result (DataFrame (list cell)) :=
  p ← pivots df;
  mret (merge_inner p.1 p.2).

(** [process_first_year_stats(df)]: the table as the call leaves the
    caller's object, and the returned pair. *)
Definition process_first_year_stats (df : DataFrame RawRecord)
    : DataFrame RawRecord * (option (DataFrame (list cell)) * option string) :=
  let df := set_columns df (canonical_columns (columns df)) in
  (df,
   match transform df with
   | inr merged => (Some merged, None)
   | inl e => (None, Some ("Error transforming dataset: " +:+ error_message e))
   end).
End Transform.

(** [out.loc[i, name]] *)
Definition loc (df : DataFrame (list cell)) (i : nat) (name : string) : option cell :=
  r ← rows df !! i;
  j ← list_find (λ c, c = name) (columns df);
  r !! j.1.

End Stats.

(** ** Loader: [load_dataset] *)

Module Loader.
Import Text.

Definition mandatory_cols : list string :=
  ["statistic label"; "year"; "sex"; "unit"; "value"].

(** [repr] of a string without quotes, backslashes or control
    characters, which the mandatory names are. *)
Definition repr_str (s : string) : string := "'" +:+ s +:+ "'".

Fixpoint join (sep : string) (l : list string) : string :=
  match l with
  | [] => ""
  | [x] => x
  | x :: t => x +:+ sep +:+ join sep t
  end.

(** [repr] of a list of such strings, as an f-string prints it. *)
Definition repr_list (l : list string) : string :=
  "[" +:+ join ", " (map repr_str l) +:+ "]".

Definition cols_lower {R} (df : DataFrame R) : list string :=
  map (λ col, str_lower (str_strip col)) (columns df).

Definition missing_cols {R} (df : DataFrame R) : list string :=
  filter (λ col, col ∉ cols_lower df) mandatory_cols.

(** [load_dataset(url)]; [read_csv] is [pd.read_csv], which returns a
    table or raises. *)
Definition load_dataset {R} (read_csv : string → result (DataFrame R)) (url : string)
    : option (DataFrame R) * option string :=
  match read_csv url with
  | inr df =>
      match missing_cols df with
      | [] => (Some df, None)
      | missing =>
          (None, Some ("Schema error: missing mandatory columns " +:+ repr_list missing))
      end
  | inl e => (None, Some ("Error loading dataset: " +:+ error_message e))
  end.

End Loader.

(** ** Persister: [save_outputs] *)

Module Persist.

Inductive level : Type := INFO | ERROR.

(** What the writers of the dataframe library do to the outside
    world: a write returns the world it leaves and the exception it
    raised, if any. *)
Class Storage (W R : Type) : Type := {
  to_csv : DataFrame R → string → W → W * option exn;
  to_parquet : DataFrame R → string → W → W * option exn;
  path_exists : W → string → bool
}.

Record state (W : Type) : Type := mkState {
  world : W;
  log : list (level * string)
}.
Arguments mkState {W} _ _.
Arguments world {W} _.
Arguments log {W} _.

(** Statements that act on the world and the log, and may raise. *)
Definition IO (W A : Type) : Type := state W → state W * result A.

Definition io_ret {W A} (x : A) : IO W A := λ s, (s, inr x).
Definition io_bind {W A B} (m : IO W A) (f : A → IO W B) : IO W B :=
  λ s, match m s with
       | (s', inr x) => f x s'
       | (s', inl e) => (s', inl e)
       end.

(** [try: body / except Exception as e: handler] *)
Definition try_except {W A} (body : IO W A) (handler : exn → IO W A) : IO W A :=
  λ s, match body s with
       | (s', inl e) => handler e s'
       | r => r
       end.

Definition logging {W} (lvl : level) (msg : string) : IO W () :=
  λ s, (mkState (world s) (log s ++ [(lvl, msg)])%list, inr ()).

Definition write {W} (w : W → W * option exn) : IO W () :=
  λ s, let '(w', e) := w (world s) in
       (mkState w' (log s), match e with Some e => inl e | None => inr () end).

Section Save.
Context {W R : Type} `{Storage W R}.

(** [save_outputs(df, csv_path, parquet_path)] *)
Definition save_outputs (df : DataFrame R) (csv_path parquet_path : string) : IO W () :=
  io_bind
    (try_except
       (io_bind (write (to_csv df csv_path))
          (λ _, logging INFO ("Data saved to CSV: " +:+ csv_path)))
       (λ e, logging ERROR
               ("Error saving CSV to " +:+ csv_path +:+ ": " +:+ error_message e)))
    (λ _,
      try_except
        (io_bind (write (to_parquet df parquet_path))
           (λ _, logging INFO ("Data saved to Parquet: " +:+ parquet_path)))
        (λ e, logging ERROR
                ("Error saving Parquet to " +:+ parquet_path +:+ ": " +:+ error_message e))).
End Save.

(** The line that an attempt with outcome [r] adds to the log. *)
Definition csv_line (path : string) (r : option exn) : level * string :=
  match r with
  | None => (INFO, "Data saved to CSV: " +:+ path)
  | Some e => (ERROR, "Error saving CSV to " +:+ path +:+ ": " +:+ error_message e)
  end.
Definition parquet_line (path : string) (r : option exn) : level * string :=
  match r with
  | None => (INFO, "Data saved to Parquet: " +:+ path)
  | Some e => (ERROR, "Error saving Parquet to " +:+ path +:+ ": " +:+ error_message e)
  end.

End Persist.

(** ** The wording of the specification, for comparison with the code *)

Module Spec.
Import Text Re Stats.

(** "contains, as a whole word (case-insensitive), first year or 1st
    year": the phrase occurs in the label, in any letter case, with no
    word character right before or right after it. *)
Definition whole_word_phrase (label : string) : Prop :=
  ∃ pre mid post : chars,
    of_string label = (pre ++ mid ++ post)%list
    ∧ (lower mid = of_string "first year" ∨ lower mid = of_string "1st year")
    ∧ word_opt (last pre) = false
    ∧ word_opt (head post) = false.

(** A mandatory column is present when some column name equals it
    after trimming and lowercasing. *)
Definition column_present {R} (df : DataFrame R) (name : string) : Prop :=
  ∃ col, col ∈ columns df ∧ str_lower (str_strip col) = name.

(** The header lets the aggregator find its columns: each mandatory
    name labels exactly one column once the header is canonical, and
    the two derived names label at most one. *)
Definition labels_ok (cols : list string) : Prop :=
  (∀ name, name ∈ Loader.mandatory_cols → count_label name cols = 1%nat)
  ∧ (∀ name, name ∈ ["year_group"; "year_range"] → (count_label name cols ≤ 1)%nat).

Definition usable_header (cols : list string) : Prop :=
  labels_ok (canonical_columns cols).




End Spec.

(** ** Single-pass forms of the text routines

    What the substitutions of [rename_header] and the literal part of
    the label pattern compute, written as plain recursions on the text;
    the properties section proves them equal to the matcher of [Re] on
    the patterns of the source. *)

Module Passes.
Import Text Rename.

Fixpoint skip (cls : ascii → bool) (s : chars) : chars :=
  match s with
  | c :: t => if cls c then skip cls t else s
  | [] => []
  end.

(** Replace every run of a class, remembering whether the pass is
    inside a run. *)
Fixpoint collapse (cls : ascii → bool) (repl : chars) (in_run : bool) (s : chars) : chars :=
  match s with
  | [] => []
  | c :: t =>
      if cls c then (if in_run then collapse cls repl true t
                     else repl ++ collapse cls repl true t)
      else c :: collapse cls repl false t
  end.

(** Drop the run of the class that ends the text. *)
Fixpoint drop_trailing (cls : ascii → bool) (s : chars) : chars :=
  match s with
  | [] => []
  | c :: t => if cls c && forallb cls t then [] else c :: drop_trailing cls t
  end.

(** No two neighbours of the text are in the class. *)
Fixpoint no_double (cls : ascii → bool) (s : chars) : bool :=
  match s with
  | c :: t => negb (cls c && from_option cls false (head t)) && no_double cls t
  | [] => true
  end.

(** A literal matched character by character. *)
Fixpoint match_literal (icase : bool) (lit : chars) (prev : option ascii) (aft : chars)
    : option (option ascii * chars) :=
  match lit with
  | [] => Some (prev, aft)
  | c :: lit' =>
      match aft with
      | x :: t => if Re.lit_match icase c x then match_literal icase lit' (Some x) t else None
      | [] => None
      end
  end.

(** The character before the position that follows [pre]. *)
Definition prev_after (prev : option ascii) (pre : chars) : option ascii :=
  match last pre with
  | Some c => Some c
  | None => prev
  end.

(** [rename_col] on the characters of a name. *)
Definition normalize (s : chars) : chars :=
  drop_trailing underscore
    (collapse underscore ["_"%char] false
      (collapse sep_class ["_"%char] false (lower (strip s)))).

(** What a normalised name looks like. *)
Definition normal (s : chars) : Prop :=
  Forall (λ c, sep_class c = false) s ∧ Forall (λ c, lower_char c = c) s
  ∧ no_double underscore s = true ∧ drop_trailing underscore s = s.

End Passes.

(** ** Sample tables and a sample store *)

Module Samples.
Import Stats Persist.

Definition no_text_numbers : Numeric := {| parse_number := λ _, None |}.

Definition header : list string := ["statistic label"; "year"; "sex"; "unit"; "value"].


(** The table of [test_process_first_year_stats_basic]. *)
Definition basic_1 : RawRecord := mkRaw "First Year data" 2000 "Male" "number" (VNum 10907).
Definition basic_2 : RawRecord := mkRaw "1st Year info" 2002 "Female" "%" (VNum 89.5).
Definition basic_3 : RawRecord := mkRaw "FIRST" 2005 "M" "number" (VNum 5000).
Definition basic_4 : RawRecord :=
  mkRaw "First Year something" 2007 "F" "percentage" (VNum 92.3).
Definition basic : DataFrame RawRecord :=
  mkDataFrame header [basic_1; basic_2; basic_3; basic_4].


(** Counts for Male in 2000-2004 and for Female in 2005-2009 only. *)
Definition gap_1 : RawRecord := mkRaw "First Year data" 2001 "Male" "number" (VNum 10).
Definition gap_2 : RawRecord := mkRaw "First Year data" 2006 "Female" "number" (VNum 20).
Definition gap_3 : RawRecord := mkRaw "First Year data" 2001 "Male" "%" (VNum 40).
Definition count_gap : DataFrame RawRecord := mkDataFrame header [gap_1; gap_2; gap_3].

(** A table without the [sex] column, as in
    [test_load_dataset_missing_mandatory_cols]. *)
Definition no_sex : DataFrame RawRecord :=
  mkDataFrame ["statistic label"; "year"; "unit"; "value"]
    [mkRaw "Entrants to First Year of Junior Cycle" 2015 "" "Number" (VNum 30608)].
Definition read_no_sex (url : string) : result (DataFrame RawRecord) := inr no_sex.

(** A store in which a write succeeds exactly at the paths of a given
    set, and records the format written at the path. *)
Definition store (writable : gset string) : Storage (gmap string string) (list cell) := {|
  to_csv df path w :=
    if decide (path ∈ writable) then (<[path := "csv"]> w, None)
    else (w, Some (OSError "Cannot save file into a non-existent directory"));
  to_parquet df path w :=
    if decide (path ∈ writable) then (<[path := "parquet"]> w, None)
    else (w, Some (OSError "Cannot save file into a non-existent directory"));
  path_exists w path := bool_decide (is_Some (w !! path))
|}.

Definition one_cell : DataFrame (list cell) := mkDataFrame ["a"] [[CInt 1]].
Definition start : state (gmap string string) := mkState ∅ [].
End Samples.

(** ** Decimal numerals *)

Module Digits.
Import Text.


End Digits.

(** ** The result table in closed form *)

Module Closed.
Import Stats.

(** The values of the rows of one group. *)
Definition group_values (rs : list Derived) (b s : string) : list Q :=
  map d_value (filter (λ r, key_of r = (b, s)) rs).

(** The sexes and the year ranges of a list of rows, each once, in
    ascending order. *)
Definition sexes (rs : list Derived) : list string := sorted_unique (map d_sex rs).
Definition buckets (rs : list Derived) : list string := sorted_unique (map year_range rs).

(** The sum of a group, rounded to an integer. *)
Definition count_cell (rs : list Derived) (b s : string) : Z :=
  round_half_even (Qsum (group_values rs b s)).

(** The mean of a group, or 0 for a group without rows, rounded to one
    decimal. *)
Definition percent_cell (rs : list Derived) (b s : string) : Q :=
  round1 (match group_values rs b s with
          | [] => 0%Q
          | vs => Qmean vs
          end).

(** One row per year range that has count rows and percentage rows. *)
Definition table (counts perc : list Derived) : DataFrame (list cell) :=
  mkDataFrame
    ("year_range" :: map (λ s, s +:+ "_count") (sexes counts)
                  ++ map (λ s, s +:+ "_percent") (sexes perc))
    (map (λ b, CStr b :: map (λ s, CInt (count_cell counts b s)) (sexes counts)
                      ++ map (λ s, CFloat (percent_cell perc b s)) (sexes perc))
         (filter (λ b, b ∈ buckets perc) (buckets counts))).

End Closed.

Module Grid.
Import Stats Closed.


End Grid.

(** ** The pipeline of the [__main__] block *)

Module Main.
Import Text Stats Loader Rename Persist.

(** The labels that the aggregator looks up, in the order of lines 62,
    65, 67, 70 and 74. *)
Definition lookup_order : list string :=
  ["statistic label"; "sex"; "value"; "year"; "unit"].

(** The first of them that the header lacks. *)
Definition first_missing (cols : list string) : option string :=
  head (filter (λ name, name ∉ cols) lookup_order).

(** The lines that [load_dataset] sends to the log: the shape of the
    table read, then the error it returns, if any. *)
Definition load_dataset_log {R} (read_csv : string → result (DataFrame R)) (url : string)
    : list (level * string) :=
  match read_csv url with
  | inr df =>
      [(INFO, "Dataset loaded successfully with "
              +:+ str_of_Z (Z.of_nat (length (rows df))) +:+ " rows and "
              +:+ str_of_Z (Z.of_nat (length (columns df))) +:+ " columns")]
  | inl _ => []
  end
  ++ match (load_dataset read_csv url).2 with
     | Some error_msg => [(ERROR, error_msg)]
     | None => []
     end.

(** The line that [process_first_year_stats] sends to the log: the
    error it returns, if any. *)
Definition process_log `{Numeric} (df : DataFrame RawRecord) : list (level * string) :=
  match (process_first_year_stats df).2.2 with
  | Some error_msg => [(ERROR, error_msg)]
  | None => []
  end.

(** The line that [rename_header] sends to the log. *)
Definition rename_header_log {R} (df : option (DataFrame R)) : list (level * string) :=
  match (rename_header df).2 with
  | Some error_msg => [(ERROR, error_msg)]
  | None => [(INFO, "Headers renamed successfully")]
  end.

Definition log_lines {W} (lines : list (level * string)) : IO W () :=
  λ s, (mkState (world s) (log s ++ lines), inr ()).

Section Run.
Context {W : Type} `{Numeric} `{Storage W (list cell)}.

(** Lines 161-171: each stage runs if the one before returned a table.
    What [timer] prints goes to the standard output, which is not part
    of the state. *)
Definition main (read_csv : string → result (DataFrame RawRecord))
    (url csv_path parquet_path : string) : IO W () :=
  io_bind (log_lines (load_dataset_log read_csv url)) (λ _,
    match (load_dataset read_csv url).1 with
    | Some df =>
        io_bind (log_lines (process_log df)) (λ _,
          match (process_first_year_stats df).2.1 with
          | Some df_processed =>
              io_bind (log_lines (rename_header_log (Some df_processed))) (λ _,
                match (rename_header (Some df_processed)).1 with
                | Some df_renamed => save_outputs df_renamed csv_path parquet_path
                | None => io_ret ()
                end)
          | None => io_ret ()
          end)
    | None => io_ret ()
    end).
End Run.

End Main.

Module Kept.
Import Text Rename.

(** A character that is neither a separator of [rename_header] nor an
    underscore. *)
Definition plain (c : ascii) : Prop := sep_class c = false ∧ underscore c = false.
Global Instance plain_dec c : Decision (plain c) := and_dec (decide _) (decide _).

End Kept.

(** ** More sample tables *)

Module Samples2.
Import Stats Persist Samples.

(** Rows of three periods and both sexes, counts and percentages. *)
Definition grid_rows : list RawRecord :=
  [ mkRaw "First Year total" 2012 "F" "number" (VNum 7);
    mkRaw "First Year total" 2003 "M" "Number" (VNum 2.5);
    mkRaw "First Year total" 2004 "Male" "number" (VText "n/a");
    mkRaw "First Year total" 2001 "F" "number" (VNum 4);
    mkRaw "First Year total" 2010 "M" "number" (VNum 9);
    mkRaw "1st year share" 2002 "F" "%" (VNum 40.25);
    mkRaw "1st year share" 2003 "F" " Percentage " (VNum 41);
    mkRaw "1st year share" 2011 "Male" "%" (VNum 55);
    mkRaw "1st year share" 1999 "Male" "%" (VNum 50) ].
Definition grid : DataFrame RawRecord := mkDataFrame Samples.header grid_rows.

(** What the call returns on [grid]. *)
Definition grid_out : DataFrame (list cell) :=
  mkDataFrame ["year_range"; "Female_count"; "Male_count"; "Female_percent"; "Male_percent"]
    [[CStr "2000-2004"; CInt 4; CInt 2; CFloat (round1 40.625); CFloat (round1 0)];
     [CStr "2010-2014"; CInt 7; CInt 9; CFloat (round1 0); CFloat (round1 55)]].

Definition read_grid (url : string) : result (DataFrame RawRecord) := inr grid.

(** A store in which both files of the pipeline can be written. *)
Definition both : Storage (gmap string string) (list cell) :=
  store {["result.csv"; "result.parquet"]}.

End Samples2.

(** * Properties *)

(** ** Text routines *)

Section TextFacts.
Import Text.

Lemma to_of_string s : to_string (of_string s) = s.
Proof. apply string_of_list_ascii_of_string. Qed.

Lemma of_to_string l : of_string (to_string l) = l.
Proof. apply list_ascii_of_string_of_list_ascii. Qed.

Lemma lower_char_idemp c : lower_char (lower_char c) = lower_char c.
Proof.
  destruct c as [[] [] [] [] [] [] [] []]; vm_compute; reflexivity.
Qed.

Lemma lstrip_nospace s : Forall (λ c, is_space c = false) s → lstrip s = s.
Proof. destruct 1 as [|c t Hc _]; simpl; [done|]. by rewrite Hc. Qed.

Lemma strip_nospace s : Forall (λ c, is_space c = false) s → strip s = s.
Proof.
  intros Hs. unfold strip, rstrip. rewrite (lstrip_nospace s Hs).
  rewrite lstrip_nospace; [apply reverse_involutive|].
  by apply Forall_reverse.
Qed.

Lemma lower_fixed s : Forall (λ c, lower_char c = c) s → lower s = s.
Proof.
  induction 1 as [|c t Hc _ IH]; [done|]. unfold lower in *. simpl. by f_equal.
Qed.

Lemma lower_all_fixed s : Forall (λ c, lower_char c = c) (lower s).
Proof.
  unfold lower. apply Forall_fmap, Forall_true. intros c. apply lower_char_idemp.
Qed.

Lemma is_space_lower c : is_space (lower_char c) = is_space c.
Proof. destruct c as [[] [] [] [] [] [] [] []]; vm_compute; reflexivity. Qed.

Lemma lstrip_lower s : lstrip (lower s) = lower (lstrip s).
Proof.
  induction s as [|c t IH]; simpl; [done|]. rewrite is_space_lower.
  by destruct (is_space c).
Qed.

Lemma strip_lower s : strip (lower s) = lower (strip s).
Proof.
  unfold strip, rstrip. rewrite lstrip_lower. unfold lower.
  by rewrite <- fmap_reverse, (lstrip_lower (reverse _)), fmap_reverse.
Qed.

Lemma str_strip_lower s : str_strip (str_lower s) = str_lower (str_strip s).
Proof. unfold str_strip, str_lower. by rewrite !of_to_string, strip_lower. Qed.

Lemma of_string_app s t : of_string (s +:+ t) = of_string s ++ of_string t.
Proof. induction s as [|c s IH]; simpl; [done|]. by rewrite IH. Qed.

Lemma of_string_inj s t : of_string s = of_string t → s = t.
Proof. intros Hst. by rewrite <- (to_of_string s), Hst, to_of_string. Qed.

Lemma append_inv_tail s1 s2 t : s1 +:+ t = s2 +:+ t → s1 = s2.
Proof.
  intros Hst. apply of_string_inj. apply (app_inv_tail (of_string t)).
  by rewrite <- !of_string_app, Hst.
Qed.
End TextFacts.

(** ** The matcher *)

Section ReFacts.
Import Text Re Passes.

(** A match consumes a prefix of the text and hands the rest to the
    continuation. *)
Lemma plus_greedy_inv {X} cls aft (k : cont) (y : X) :
  plus_greedy cls aft k = Some y →
  ∃ p x run rest, aft = (x :: run ++ rest)%list ∧ cls x = true
    ∧ Forall (λ c, cls c = true) run ∧ k p rest = Some y.
Proof.
  revert y. induction aft as [|x t IH]; intros y; simpl; [done|].
  destruct (cls x) eqn:Hx; [|done].
  destruct (plus_greedy cls t k) as [y'|] eqn:Hg.
  - intros [= <-]. destruct (IH y' eq_refl) as (p & x' & run & rest & -> & Hx' & Hrun & Hk).
    exists p, x, (x' :: run), rest. repeat split; auto.
  - intros Hk. exists (Some x), x, [], t. repeat split; auto.
Qed.

Lemma rmatch_inv {X} icase r prev aft (k : cont) (y : X) :
  rmatch icase r prev aft k = Some y →
  ∃ p mid rest, aft = (mid ++ rest)%list ∧ k p rest = Some y.
Proof.
  revert prev aft k y. induction r as [|c|cls|r1 IH1 r2 IH2|r1 IH1 r2 IH2| |];
    intros prev aft k y; simpl.
  - intros Hk. by exists prev, [], aft.
  - destruct aft as [|x t]; [done|]. destruct (lit_match icase c x); [|done].
    intros Hk. by exists (Some x), [x], t.
  - intros Hg. apply plus_greedy_inv in Hg as (p & x & run & rest & -> & _ & _ & Hk).
    by exists p, (x :: run), rest.
  - intros H1. apply IH1 in H1 as (p1 & mid1 & rest1 & -> & H2).
    apply IH2 in H2 as (p2 & mid2 & rest2 & -> & Hk).
    exists p2, (mid1 ++ mid2)%list, rest2. by rewrite <- app_assoc.
  - destruct (rmatch icase r1 prev aft k) as [y'|] eqn:H1.
    + intros [= <-]. by apply IH1 in H1.
    + apply IH2.
  - destruct (at_boundary prev aft); [|done]. intros Hk. by exists prev, [], aft.
  - destruct (at_end aft); [|done]. intros Hk. by exists prev, [], aft.
Qed.

Lemma match_here_suffix icase r prev aft p rest :
  match_here icase r prev aft = Some (p, rest) → ∃ mid, aft = (mid ++ rest)%list.
Proof.
  intros Hm. apply rmatch_inv in Hm as (p' & mid & rest' & -> & [= _ <-]). by exists mid.
Qed.

(** The greedy repetition alone takes the whole run. *)
Lemma match_here_plus cls prev x t :
  snd <$> match_here false (Plus cls) prev (x :: t)
  = if cls x then Some (skip cls t) else None.
Proof.
  unfold match_here. simpl. revert x. induction t as [|y t IH]; intros x.
  - simpl. by destruct (cls x).
  - specialize (IH y). simpl in *. destruct (cls x); [|done].
    destruct (cls y); [|done].
    destruct (plus_greedy cls t _) as [[p r]|] eqn:Hg; simpl in *; done.
Qed.

Lemma skip_length cls t : (length (skip cls t) ≤ length t)%nat.
Proof. induction t as [|c t IH]; simpl; [done|]. destruct (cls c); simpl; lia. Qed.

Lemma collapse_skip cls repl t :
  collapse cls repl true t = collapse cls repl false (skip cls t).
Proof.
  induction t as [|c t IH]; simpl; [done|]. destruct (cls c) eqn:Hc; simpl; [done|].
  by rewrite Hc.
Qed.

Lemma sub_go_plus cls repl fuel prev aft :
  (length aft < fuel)%nat →
  sub_go fuel (Plus cls) repl prev aft = collapse cls repl false aft.
Proof.
  revert prev aft. induction fuel as [|fuel IH]; intros prev aft Hlen; [lia|].
  destruct aft as [|x t]; [done|].
  pose proof (match_here_plus cls prev x t) as Hm.
  cbn [sub_go]. destruct (match_here false (Plus cls) prev (x :: t)) as [[p rest]|];
    simpl in Hm; cbn [collapse]; destruct (cls x); try done.
  - injection Hm as ->. pose proof (skip_length cls t).
    rewrite bool_decide_eq_false_2 by (simpl; lia).
    rewrite IH by (simpl in *; lia). by rewrite collapse_skip.
  - rewrite IH by (simpl in *; lia). done.
Qed.

Lemma sub_chars_plus cls repl s :
  sub_chars (Plus cls) repl s = collapse cls repl false s.
Proof. unfold sub_chars. apply sub_go_plus. lia. Qed.

Lemma match_here_trailing cls prev x t :
  "010"%char ∉ t →
  snd <$> match_here false (Seq (Plus cls) EndS) prev (x :: t)
  = if cls x && forallb cls t then Some [] else None.
Proof.
  unfold match_here. simpl. revert x. induction t as [|y t IH]; intros x Hnl.
  - simpl. by destruct (cls x).
  - assert ("010"%char ∉ t) as Ht by set_solver.
    assert (at_end (y :: t) = false) as Hend.
    { destruct t; [|done]. simpl. apply bool_decide_eq_false_2. set_solver. }
    specialize (IH y Ht). cbn [plus_greedy forallb] in *. rewrite Hend.
    destruct (cls x); [|done]. cbn [andb].
    destruct (cls y); [|done]. cbn [andb] in *.
    destruct (plus_greedy cls t _) as [[p r]|] eqn:Hg; simpl in IH |- *.
    + by destruct (forallb cls t).
    + by destruct (at_end t).
Qed.

Lemma sub_go_trailing cls fuel prev aft :
  "010"%char ∉ aft → (length aft < fuel)%nat →
  sub_go fuel (Seq (Plus cls) EndS) [] prev aft = drop_trailing cls aft.
Proof.
  revert prev aft. induction fuel as [|fuel IH]; intros prev aft Hnl Hlen; [lia|].
  destruct aft as [|x t]; [done|].
  assert ("010"%char ∉ t) as Ht by set_solver.
  pose proof (match_here_trailing cls prev x t Ht) as Hm.
  cbn [sub_go drop_trailing].
  destruct (match_here false (Seq (Plus cls) EndS) prev (x :: t)) as [[p rest]|];
    simpl in Hm; destruct (cls x && forallb cls t); try done.
  - injection Hm as ->. simpl. by destruct fuel.
  - rewrite IH by (simpl in *; auto with lia). done.
Qed.

Lemma sub_chars_trailing cls s :
  "010"%char ∉ s → sub_chars (Seq (Plus cls) EndS) [] s = drop_trailing cls s.
Proof. intros Hs. unfold sub_chars. apply sub_go_trailing; [done|lia]. Qed.

(** *** The single-pass forms *)

Lemma collapse_Forall (P : ascii → Prop) cls repl b s :
  Forall P repl → Forall P s → Forall P (collapse cls repl b s).
Proof.
  intros Hr Hs. revert b. induction Hs as [|c t Hc _ IH]; intros b; simpl; [done|].
  destruct (cls c), b; auto using Forall_app_2.
Qed.

Lemma collapse_outside cls repl b s :
  Forall (λ c, cls c = false) repl → Forall (λ c, cls c = false) (collapse cls repl b s).
Proof.
  intros Hr. revert b. induction s as [|c t IH]; intros b; simpl; [done|].
  destruct (cls c) eqn:Hc, b; auto using Forall_app_2.
Qed.

Lemma collapse_id cls repl b s :
  Forall (λ c, cls c = false) s → collapse cls repl b s = s.
Proof.
  intros Hs. revert b. induction Hs as [|c t Hc _ IH]; intros b; simpl; [done|].
  by rewrite Hc, IH.
Qed.

Lemma collapse_head cls repl t :
  from_option cls false (head (collapse cls repl true t)) = false.
Proof.
  induction t as [|c t IH]; simpl; [done|]. destruct (cls c) eqn:Hc; [done|]. by simpl.
Qed.

Lemma collapse_no_double cls u b s :
  no_double cls (collapse cls [u] b s) = true.
Proof.
  revert b. induction s as [|c t IH]; intros b; simpl; [done|].
  destruct (cls c) eqn:Hc.
  - destruct b; [done|]. simpl. rewrite collapse_head, IH. by rewrite andb_false_r.
  - simpl. by rewrite Hc, IH.
Qed.

Lemma collapse_single cls u s :
  (∀ c, cls c = true → c = u) → no_double cls s = true →
  collapse cls [u] false s = s
  ∧ (from_option cls false (head s) = false → collapse cls [u] true s = s).
Proof.
  intros Hu. induction s as [|c t IH]; simpl; [done|].
  intros [Hct Ht]%andb_true_iff. destruct (IH Ht) as [IH1 IH2].
  destruct (cls c) eqn:Hc; simpl in *.
  - apply negb_true_iff in Hct. rewrite IH2 by done. by rewrite (Hu c Hc).
  - by rewrite IH1.
Qed.

Lemma drop_trailing_Forall (P : ascii → Prop) cls s :
  Forall P s → Forall P (drop_trailing cls s).
Proof.
  induction 1 as [|c t Hc _ IH]; simpl; [done|].
  destruct (cls c && forallb cls t); auto.
Qed.

Lemma drop_trailing_head cls s :
  drop_trailing cls s = [] ∨ head (drop_trailing cls s) = head s.
Proof. destruct s as [|c t]; simpl; [auto|]. destruct (cls c && forallb cls t); auto. Qed.

Lemma drop_trailing_no_double cls s :
  no_double cls s = true → no_double cls (drop_trailing cls s) = true.
Proof.
  induction s as [|c t IH]; simpl; [done|].
  intros [Hct Ht]%andb_true_iff. destruct (cls c && forallb cls t); [done|].
  simpl. rewrite (IH Ht), andb_true_r.
  destruct (drop_trailing_head cls t) as [->| ->]; [|done].
  simpl. by rewrite andb_false_r.
Qed.

Lemma drop_trailing_all cls s :
  forallb cls s = false → forallb cls (drop_trailing cls s) = false.
Proof.
  induction s as [|c t IH]; simpl; [done|]. intros Hs. rewrite Hs. simpl.
  destruct (cls c); [|done]. simpl in *. auto.
Qed.

Lemma drop_trailing_idemp cls s :
  drop_trailing cls (drop_trailing cls s) = drop_trailing cls s.
Proof.
  induction s as [|c t IH]; simpl; [done|].
  destruct (cls c && forallb cls t) eqn:Hct; [done|]. simpl. rewrite IH.
  destruct (cls c); [|done]. simpl in *. by rewrite drop_trailing_all.
Qed.
End ReFacts.

(** ** The label filter *)

Section FilterFacts.
Import Text Re Passes Stats Spec.

Lemma rmatch_literal {X} icase lit prev aft (k : cont) :
  rmatch (X := X) icase (foldr (λ c r, Seq (Lit c) r) Eps lit) prev aft k
  = match match_literal icase lit prev aft with
    | Some (p, rest) => k p rest
    | None => None
    end.
Proof.
  revert prev aft. induction lit as [|c lit IH]; intros prev aft; simpl; [done|].
  destruct aft as [|x t]; [done|]. destruct (lit_match icase c x); [|done]. apply IH.
Qed.

Lemma prev_after_cons prev x pre : prev_after prev (x :: pre) = prev_after (Some x) pre.
Proof.
  unfold prev_after. destruct pre as [|y pre] using rev_ind; [done|].
  by rewrite app_comm_cons, !last_snoc.
Qed.

Lemma match_literal_spec lit prev aft p rest :
  match_literal true lit prev aft = Some (p, rest)
  ↔ ∃ mid, aft = (mid ++ rest)%list ∧ lower mid = lower lit ∧ p = prev_after prev mid.
Proof.
  revert prev aft. induction lit as [|c lit IH]; intros prev aft; simpl.
  - split.
    + intros [= <- <-]. by exists [].
    + intros (mid & -> & Hmid & ->). destruct mid; [done|]. done.
  - destruct aft as [|x t].
    + split; [done|]. intros (mid & Hmid & Hl & _). destruct mid; done.
    + unfold lit_match. case_bool_decide as Hcx.
      * rewrite IH. split.
        -- intros (mid & -> & Hl & ->). exists (x :: mid). simpl.
           rewrite Hl, Hcx, prev_after_cons. done.
        -- intros (mid & Hmid & Hl & ->). destruct mid as [|y mid]; [done|].
           simpl in *. simplify_eq. exists mid. by rewrite prev_after_cons.
      * split; [done|]. intros (mid & Hmid & Hl & _). destruct mid as [|y mid]; [done|].
        simpl in *. simplify_eq.
Qed.

Lemma search_from_spec icase r prev aft :
  search_from icase r prev aft = true
  ↔ ∃ pre post, aft = (pre ++ post)%list
      ∧ is_Some (match_here icase r (prev_after prev pre) post).
Proof.
  revert prev. induction aft as [|x t IH]; intros prev; simpl.
  - destruct (match_here icase r prev []) eqn:Hm.
    + split; [|done]. intros _. exists [], [].
      change (prev_after prev []) with prev. by rewrite Hm.
    + split; [done|]. intros (pre & post & Heq & Hs).
      symmetry in Heq. apply app_eq_nil in Heq as [-> ->].
      change (prev_after prev []) with prev in Hs. rewrite Hm in Hs. by destruct Hs.
  - destruct (match_here icase r prev (x :: t)) eqn:Hm.
    + split; [|done]. intros _. exists [], (x :: t).
      change (prev_after prev []) with prev. by rewrite Hm.
    + rewrite IH. split.
      * intros (pre & post & -> & Hs). exists (x :: pre), post.
        by rewrite prev_after_cons.
      * intros (pre & post & Heq & Hs). destruct pre as [|y pre].
        -- simpl in Heq. subst post. change (prev_after prev []) with prev in Hs.
           rewrite Hm in Hs. by destruct Hs.
        -- simpl in Heq. simplify_eq. exists pre, post.
           by rewrite prev_after_cons in Hs.
Qed.

Lemma is_word_lower c : is_word (lower_char c) = is_word c.
Proof. destruct c as [[] [] [] [] [] [] [] []]; vm_compute; reflexivity. Qed.

Lemma word_opt_lower o : word_opt (lower_char <$> o) = word_opt o.
Proof. destruct o; simpl; [apply is_word_lower|done]. Qed.

Lemma literal_then_boundary lit prev post :
  is_Some (match match_literal true lit prev post with
           | Some (p, rest) => if at_boundary p rest then Some (p, rest) else None
           | None => None
           end)
  ↔ ∃ mid rest, post = mid ++ rest ∧ lower mid = lower lit
      ∧ at_boundary (prev_after prev mid) rest = true.
Proof.
  split.
  - destruct (match_literal true lit prev post) as [[p rest]|] eqn:Hm;
      [|by intros []].
    apply match_literal_spec in Hm as (mid & -> & Hl & ->).
    destruct (at_boundary _ rest) eqn:Hb; [|by intros []]. intros _. by exists mid, rest.
  - intros (mid & rest & -> & Hl & Hb).
    assert (match_literal true lit prev (mid ++ rest)
            = Some (prev_after prev mid, rest)) as ->.
    { apply match_literal_spec. by exists mid. }
    by rewrite Hb.
Qed.

Lemma is_Some_alt {A} (a b : option A) :
  is_Some (match a with Some x => Some x | None => b end) ↔ is_Some a ∨ is_Some b.
Proof.
  destruct a; simpl; [by intuition eauto|]. split; [auto|]. by intros [[]|].
Qed.

Lemma match_here_pattern prev post :
  is_Some (match_here true pattern prev post)
  ↔ at_boundary prev post = true
    ∧ ∃ mid rest, post = mid ++ rest
        ∧ (lower mid = of_string "first year" ∨ lower mid = of_string "1st year")
        ∧ at_boundary (prev_after prev mid) rest = true.
Proof.
  unfold match_here, pattern. cbn [rmatch]. unfold lit_str. rewrite !rmatch_literal.
  destruct (at_boundary prev post); [|split; [by intros []|by intros []]].
  rewrite is_Some_alt, !literal_then_boundary. split.
  - intros [(mid & rest & ? & ? & ?)|(mid & rest & ? & ? & ?)];
      (split; [done|]); exists mid, rest; auto.
  - intros [_ (mid & rest & ? & [?|?] & ?)]; [left|right]; by exists mid, rest.
Qed.

(** Both phrases start and end with a word character. *)
Lemma phrase_ends lit mid :
  lower mid = lit → word_opt (head lit) = true → word_opt (last lit) = true →
  word_opt (last mid) = true
  ∧ (∀ rest, word_opt (head (mid ++ rest)) = true)
  ∧ (∀ prev, prev_after prev mid = last mid).
Proof.
  intros <- Hh Hl. unfold lower in *. rewrite fmap_last, word_opt_lower in Hl.
  destruct mid as [|x mid]; [done|]. repeat split; [done| |].
  - intros rest. simpl in *. by rewrite is_word_lower in Hh.
  - intros prev. unfold prev_after. by destruct (last (x :: mid)).
Qed.

Lemma phrase_cases mid :
  lower mid = of_string "first year" ∨ lower mid = of_string "1st year" →
  word_opt (last mid) = true
  ∧ (∀ rest, word_opt (head (mid ++ rest)) = true)
  ∧ (∀ prev, prev_after prev mid = last mid).
Proof. intros [Hm|Hm]; by eapply phrase_ends. Qed.

(** The pattern of the source finds exactly the labels that hold one
    of the phrases as a whole word. *)
Lemma contains_pattern_spec label :
  contains_pattern label = true ↔ whole_word_phrase label.
Proof.
  unfold contains_pattern, search, whole_word_phrase. rewrite search_from_spec.
  split.
  - intros (pre & post & Hlab & Hm).
    apply match_here_pattern in Hm as (Hb1 & mid & rest & -> & Hmid & Hb2).
    destruct (phrase_cases mid Hmid) as (Hlast & Hhead & Hprev).
    exists pre, mid, rest. split; [done|]. split; [done|].
    unfold at_boundary in *. rewrite Hhead in Hb1. rewrite Hprev, Hlast in Hb2.
    unfold prev_after in Hb1. split.
    + destruct (last pre) as [c|]; simpl in *; [by destruct (is_word c)|done].
    + by destruct (word_opt (head rest)).
  - intros (pre & mid & rest & Hlab & Hmid & Hpre & Hrest).
    destruct (phrase_cases mid Hmid) as (Hlast & Hhead & Hprev).
    exists pre, (mid ++ rest). split; [done|]. apply match_here_pattern.
    split.
    + unfold at_boundary, prev_after. rewrite Hhead.
      destruct (last pre); simpl in *; [by rewrite Hpre|done].
    + exists mid, rest. unfold at_boundary. by rewrite Hprev, Hlast, Hrest.
Qed.

Lemma first_year_rows_drop pre r post :
  ¬ whole_word_phrase (statistic_label r) →
  first_year_rows (pre ++ r :: post) = first_year_rows (pre ++ post).
Proof.
  intros Hr. unfold first_year_rows. rewrite !filter_app, filter_cons_False; [done|].
  by rewrite contains_pattern_spec.
Qed.

Context `{Numeric}.

(** The aggregation reads the rows of its argument through the label
    filter only. *)
Lemma transform_rows df df' :
  columns df = columns df' →
  first_year_rows (rows df) = first_year_rows (rows df') →
  transform df = transform df'.
Proof. intros Hc Hr. unfold transform, pivots. by rewrite Hc, Hr. Qed.

Lemma process_rows df rs' :
  first_year_rows (rows df) = first_year_rows rs' →
  (process_first_year_stats df).2
  = (process_first_year_stats (mkDataFrame (columns df) rs')).2.
Proof.
  intros Hr. unfold process_first_year_stats. cbn [snd].
  by rewrite (transform_rows _ (set_columns (mkDataFrame (columns df) rs')
                                 (canonical_columns (columns df)))).
Qed.

(** C3: the label filter keeps the rows whose label holds first year
    or 1st year as a whole word, in any letter case, and only those; a
    row that does not can be taken out of the input without changing
    what the function returns; the label FIRST is such a row. *)
Theorem first_year_filter (df : DataFrame RawRecord) :
  (∀ r, r ∈ first_year_rows (rows df)
        ↔ r ∈ rows df ∧ whole_word_phrase (statistic_label r))
  ∧ (∀ pre r post, rows df = pre ++ r :: post →
       ¬ whole_word_phrase (statistic_label r) →
       first_year_rows (rows df) = first_year_rows (pre ++ post)
       ∧ (process_first_year_stats df).2
         = (process_first_year_stats (mkDataFrame (columns df) (pre ++ post))).2)
  ∧ contains_pattern "FIRST" = false
  ∧ ¬ whole_word_phrase "FIRST".
Proof.
  split; [|split; [|split]].
  - intros r. unfold first_year_rows.
    rewrite list_elem_of_filter, contains_pattern_spec. tauto.
  - intros pre r post Hrows Hr.
    assert (first_year_rows (rows df) = first_year_rows (pre ++ post)) as Hkept.
    { rewrite Hrows. by apply first_year_rows_drop. }
    split; [done|]. by apply process_rows.
  - by vm_compute.
  - rewrite <- contains_pattern_spec. by vm_compute.
Qed.
End FilterFacts.

(** ** The aggregation *)

Section StatsFacts.
Import Text Re Stats Spec.
Context `{Numeric}.

Lemma count_label_app name l l' :
  count_label name (l ++ l') = (count_label name l + count_label name l')%nat.
Proof. unfold count_label. by rewrite filter_app, length_app. Qed.

Lemma setitem_ok cols name :
  (count_label name cols ≤ 1)%nat →
  ∃ cols', setitem cols name = inr cols'
    ∧ ∀ other, other ≠ name → count_label other cols' = count_label other cols.
Proof.
  intros Hc. unfold setitem.
  destruct (count_label name cols) as [|[|n]] eqn:Hn; [| |lia].
  - eexists. split; [done|]. intros other Ho. rewrite count_label_app.
    unfold count_label at 2. rewrite filter_cons_False by done. simpl. lia.
  - eexists. split; done.
Qed.

Lemma getitem_ok cols name : count_label name cols = 1%nat → getitem cols name = inr ().
Proof. intros Hc. unfold getitem. by rewrite Hc. Qed.

(** With a usable header every column access succeeds, and the two
    tables of the merge are the pivots of the kept rows. *)
Lemma pivots_usable df :
  labels_ok (columns df) →
  pivots df
  = (cw ← counts_wide (map derive (first_year_rows (rows df)));
     mret (cw, perc_wide (map derive (first_year_rows (rows df))))).
Proof.
  intros [Hm Hd]. unfold pivots.
  rewrite !getitem_ok by (apply Hm; unfold Loader.mandatory_cols; set_solver).
  cbn [mbind result_bind].
  destruct (setitem_ok (columns df) "year_group") as (c1 & -> & Hc1);
    [apply Hd; set_solver|].
  cbn [mbind result_bind].
  destruct (setitem_ok c1 "year_range") as (c2 & -> & Hc2).
  { rewrite Hc1 by done. apply Hd; set_solver. }
  cbn [mbind result_bind].
  rewrite getitem_ok; [done|].
  rewrite Hc2, Hc1 by done. apply Hm. unfold Loader.mandatory_cols. set_solver.
Qed.

Lemma transform_usable df :
  labels_ok (columns df) →
  transform df
  = (cw ← counts_wide (map derive (first_year_rows (rows df)));
     mret (merge_inner cw (perc_wide (map derive (first_year_rows (rows df)))))).
Proof.
  intros Hok. unfold transform. rewrite pivots_usable by done.
  by destruct (counts_wide _).
Qed.

Lemma bind_inr {A B} (m : result A) (f : A → result B) y :
  m ≫= f = inr y → ∃ x, m = inr x ∧ f x = inr y.
Proof. destruct m as [e|x]; [done|]. intros Hf. by exists x. Qed.

Lemma pivots_inv df cw pw :
  pivots df = inr (cw, pw) →
  counts_wide (map derive (first_year_rows (rows df))) = inr cw
  ∧ pw = perc_wide (map derive (first_year_rows (rows df))).
Proof.
  unfold pivots. intros Ht.
  do 7 (apply bind_inr in Ht as (? & _ & Ht)).
  apply bind_inr in Ht as (cw' & Hcw & Ht). by injection Ht as -> <-.
Qed.

Lemma transform_pivots df out :
  transform df = inr out ↔ ∃ cw pw, pivots df = inr (cw, pw) ∧ out = merge_inner cw pw.
Proof.
  unfold transform. split.
  - intros ([cw pw] & Hp & [= <-])%bind_inr. by exists cw, pw.
  - intros (cw & pw & -> & ->). done.
Qed.

Lemma transform_inv df out :
  transform df = inr out →
  ∃ cw, counts_wide (map derive (first_year_rows (rows df))) = inr cw
        ∧ out = merge_inner cw (perc_wide (map derive (first_year_rows (rows df)))).
Proof.
  intros (cw & pw & [Hcw ->]%pivots_inv & ->)%transform_pivots. by exists cw.
Qed.

Lemma process_Some df out :
  (process_first_year_stats df).2 = (Some out, None)
  ↔ transform (set_columns df (canonical_columns (columns df))) = inr out.
Proof.
  unfold process_first_year_stats. cbn [snd].
  destruct (transform _) as [e|o]; split; intros ?; simplify_eq; done.
Qed.



(** *** The split by unit *)





(** *** Grouping, pivoting and joining *)

Lemma sorted_unique_elem b l : b ∈ sorted_unique l ↔ b ∈ l.
Proof. unfold sorted_unique. by rewrite merge_sort_Permutation, elem_of_remove_dups. Qed.

Lemma map_fst_tag {A B} (h : A → B) (l : list A) : map fst (map (λ k, (k, h k)) l) = l.
Proof. induction l as [|x l IH]; simpl; [done|]. by rewrite IH. Qed.

Lemma groupby_keys agg rs k :
  k ∈ map fst (groupby agg rs) ↔ ∃ d, d ∈ rs ∧ key_of d = k.
Proof.
  unfold groupby. rewrite map_fst_tag.
  rewrite merge_sort_Permutation, elem_of_remove_dups, list_elem_of_fmap.
  split; intros (d & Hd1 & Hd2); exists d; auto.
Qed.

Lemma pivot_index summary b :
  b ∈ w_index (pivot summary) ↔ ∃ k, k ∈ map fst summary ∧ k.1 = b.
Proof.
  unfold w_index, pivot. cbn [w_rows]. rewrite map_fst_tag.
  rewrite sorted_unique_elem, list_elem_of_fmap. split.
  - intros (e & -> & He). exists e.1. split; [|done]. by apply list_elem_of_fmap_2.
  - intros (k & (e & -> & He)%list_elem_of_fmap & <-). by exists e.
Qed.

Lemma pivot_columns summary s :
  s ∈ w_columns (pivot summary) ↔ ∃ k, k ∈ map fst summary ∧ k.2 = s.
Proof.
  unfold pivot. cbn [w_columns]. rewrite sorted_unique_elem, list_elem_of_fmap. split.
  - intros (e & -> & He). exists e.1. split; [|done]. by apply list_elem_of_fmap_2.
  - intros (k & (e & -> & He)%list_elem_of_fmap & <-). by exists e.
Qed.

Lemma lookup_key_None k summary :
  lookup_key k summary = None ↔ k ∉ map fst summary.
Proof.
  unfold lookup_key. rewrite fmap_None, head_None. split.
  - intros Hf (e & -> & He)%list_elem_of_fmap.
    assert (e ∈ filter (λ e', e'.1 = e.1) summary) as Hin by by apply list_elem_of_filter.
    rewrite Hf in Hin. by apply elem_of_nil in Hin.
  - intros Hk. apply elem_of_nil_inv. intros e [He Hin]%list_elem_of_filter.
    apply Hk. rewrite <- He. by apply list_elem_of_fmap_2.
Qed.

Lemma pivot_groupby_index agg rs b :
  b ∈ w_index (pivot (groupby agg rs)) ↔ ∃ d, d ∈ rs ∧ year_range d = b.
Proof.
  rewrite pivot_index. split.
  - intros (k & (d & Hd & <-)%groupby_keys & <-). by exists d.
  - intros (d & Hd & <-). exists (key_of d). split; [|done].
    apply groupby_keys. by exists d.
Qed.





Lemma mapM_inl {A B} (f : A → result B) l e :
  (∀ x e', f x = inl e' → e' = e) → (∃ x, x ∈ l ∧ f x = inl e) → mapM f l = inl e.
Proof.
  intros Hone (x & Hx & Hfx). induction l as [|y l IH]; simpl.
  - by apply elem_of_nil in Hx.
  - destruct (f y) as [e'|b] eqn:Hy; cbn [mbind result_bind].
    + by rewrite (Hone y e' Hy).
    + apply elem_of_cons in Hx as [->|Hx]; [congruence|]. by rewrite (IH Hx).
Qed.







(** *** Missing cells *)

Lemma to_int_error o e : to_int o = inl e → e = IntCastingNaNError.
Proof. destruct o; simpl; [done|]. by intros [= <-]. Qed.

Lemma astype_int_missing (w : Wide (option Q)) b cells :
  (b, cells) ∈ w_rows w → None ∈ cells → astype_int w = inl IntCastingNaNError.
Proof.
  intros Hrow Hnone. unfold astype_int.
  rewrite (mapM_inl _ _ IntCastingNaNError); [done| |].
  - intros r e. destruct (mapM to_int r.2) as [e'|cs] eqn:Hm; cbn [mbind result_bind];
      [|done]. intros [= <-]. clear Hrow Hnone.
    induction (r.2) as [|o l IH]; simpl in Hm; [done|].
    destruct (to_int o) as [e1|z] eqn:Ho; cbn [mbind result_bind] in Hm.
    + injection Hm as <-. by eapply to_int_error.
    + destruct (mapM to_int l) as [e2|k]; cbn [mbind result_bind] in Hm; [|done].
      injection Hm as <-. by apply IH.
  - exists (b, cells). split; [done|]. cbn [snd].
    rewrite (mapM_inl _ _ IntCastingNaNError); [done|apply to_int_error|].
    by exists None.
Qed.

Lemma pivot_row summary b :
  b ∈ w_index (pivot summary) →
  (b, map (λ s, lookup_key (b, s) summary) (w_columns (pivot summary)))
  ∈ w_rows (pivot summary).
Proof.
  unfold w_index, pivot. cbn [w_rows w_columns]. rewrite map_fst_tag. intros Hb.
  apply list_elem_of_fmap. by exists b.
Qed.

Lemma counts_wide_missing rs d1 d2 :
  d1 ∈ df_counts rs → d2 ∈ df_counts rs →
  (∀ d, d ∈ df_counts rs → ¬ (year_range d = year_range d1 ∧ d_sex d = d_sex d2)) →
  counts_wide rs = inl IntCastingNaNError.
Proof.
  intros H1 H2 Hgap. unfold counts_wide, counts_pivot.
  set (summary := groupby Qsum (df_counts rs)).
  assert (year_range d1 ∈ w_index (pivot summary)) as Hb.
  { apply pivot_groupby_index. by exists d1. }
  assert (d_sex d2 ∈ w_columns (pivot summary)) as Hs.
  { apply pivot_columns. exists (key_of d2). split; [|done].
    apply groupby_keys. by exists d2. }
  apply pivot_row in Hb.
  eapply (astype_int_missing _ (year_range d1)).
  - unfold wide_map, add_suffix. cbn [w_rows w_columns].
    apply (list_elem_of_fmap_2 (λ r, (r.1, map (fmap round0) r.2))) in Hb. exact Hb.
  - cbn [snd]. rewrite <- list_fmap_compose. apply list_elem_of_fmap.
    exists (d_sex d2). split; [|done]. simpl.
    assert (lookup_key (year_range d1, d_sex d2) summary = None) as ->; [|done].
    apply lookup_key_None. intros (d & Hd & Hk)%groupby_keys.
    apply (Hgap d Hd). unfold key_of in Hk. by simplify_eq.
Qed.

Lemma round1_zero : (round1 0 == 0)%Q.
Proof. by vm_compute. Qed.

Lemma perc_wide_cell rs b cells i s :
  (b, cells) ∈ w_rows (perc_wide rs) →
  w_columns (perc_wide rs) !! i = Some (s +:+ "_percent") →
  (∀ d, d ∈ df_perc rs → ¬ (year_range d = b ∧ d_sex d = s)) →
  cells !! i = Some (round1 0).
Proof.
  unfold perc_wide, perc_pivot, wide_map, add_suffix. cbn [w_rows w_columns].
  set (summary := groupby Qmean (df_perc rs)). unfold pivot. cbn [w_rows w_columns].
  set (cols := sorted_unique (map (λ e, e.1.2) summary)).
  rewrite <- !list_fmap_compose. intros (b' & Heq & _)%list_elem_of_fmap Hcol Hgap.
  simpl in Heq. injection Heq as <- ->.
  rewrite list_lookup_fmap in Hcol.
  destruct (cols !! i) as [s'|] eqn:Hi; [|done]. simpl in Hcol.
  injection Hcol as ->%append_inv_tail.
  rewrite <- !list_fmap_compose, list_lookup_fmap, Hi. simpl.
  assert (lookup_key (b, s) summary = None) as ->; [|done].
  apply lookup_key_None. intros (d & Hd & Hk)%groupby_keys.
  apply (Hgap d Hd). unfold key_of in Hk. by simplify_eq.
Qed.

Lemma process_error df e0 :
  counts_wide (map derive (first_year_rows (rows df))) = inl e0 →
  ∃ e, (process_first_year_stats df).2
       = (None, Some ("Error transforming dataset: " +:+ error_message e))
       ∧ (usable_header (columns df) → e = e0).
Proof.
  intros Hcw. unfold process_first_year_stats. cbn [snd].
  destruct (transform _) as [e|out] eqn:Ht.
  - exists e. split; [done|]. intros Hu. rewrite transform_usable in Ht by done.
    cbn [set_columns rows] in Ht. rewrite Hcw in Ht. by injection Ht.
  - apply transform_inv in Ht as (cw & Hcw' & _). cbn [set_columns rows] in Hcw'.
    congruence.
Qed.

(** C9: when the counts subset holds a year range and a sex that no
    row of the subset combines, the function returns no table and a
    transformation error, however the rest of the input looks; with a
    usable header the error is the failed integer conversion of the
    counts pivot, whose missing cell was not filled.  A missing cell of
    the percentage pivot is filled with 0 instead. *)
Theorem missing_count_cell (df : DataFrame RawRecord) (d1 d2 : Derived) :
  let derived := map derive (first_year_rows (rows df)) in
  d1 ∈ df_counts derived → d2 ∈ df_counts derived →
  (∀ d, d ∈ df_counts derived → ¬ (year_range d = year_range d1 ∧ d_sex d = d_sex d2)) →
  (∃ e, (process_first_year_stats df).2
        = (None, Some ("Error transforming dataset: " +:+ error_message e))
        ∧ (usable_header (columns df) → e = IntCastingNaNError))
  ∧ (∀ b cells i s,
       (b, cells) ∈ w_rows (perc_wide derived) →
       w_columns (perc_wide derived) !! i = Some (s +:+ "_percent") →
       (∀ d, d ∈ df_perc derived → ¬ (year_range d = b ∧ d_sex d = s)) →
       ∃ q, cells !! i = Some q ∧ (q == 0)%Q).
Proof.
  intros derived H1 H2 Hgap. split.
  - apply process_error. by apply (counts_wide_missing derived d1 d2).
  - intros b cells i s Hrow Hcol Hnone. exists (round1 0). split; [|apply round1_zero].
    by eapply perc_wide_cell.
Qed.

(** C10: the call leaves the caller's table with its header trimmed and
    lowercased, whatever it returns; a table without the mandatory
    columns makes it return an error, and its header has changed all
    the same. *)
Theorem header_mutated_in_place :
  (∀ df : DataFrame RawRecord,
     (process_first_year_stats df).1
     = set_columns df (canonical_columns (columns df)))
  ∧ (∃ df : DataFrame RawRecord,
       (process_first_year_stats df).2
       = (None, Some "Error transforming dataset: 'statistic label'")
       ∧ (process_first_year_stats df).1 ≠ df).
Proof.
  split; [done|]. exists (mkDataFrame [" Year "] []). split; [by vm_compute|].
  by vm_compute.
Qed.
End StatsFacts.

(** ** Header Normalizer *)

Section RenameFacts.
Import Text Re Rename Passes.

Lemma sep_class_space c : sep_class c = false → is_space c = false.
Proof. unfold sep_class. by destruct (is_space c). Qed.

Lemma underscore_one c : underscore c = true → c = "_"%char.
Proof. unfold underscore. by intros ?%bool_decide_eq_true. Qed.

Lemma rename_col_normalize col : of_string (rename_col col) = normalize (of_string col).
Proof.
  unfold rename_col, sub, str_lower, str_strip, normalize.
  unfold pat_trailing, pat_underscores, pat_separators.
  rewrite !of_to_string. change (of_string "_") with ["_"%char].
  change (of_string "") with (@nil ascii).
  rewrite !sub_chars_plus. rewrite sub_chars_trailing; [done|].
  intros Hin.
  refine (proj1 (Forall_forall (λ c, "010"%char ≠ c) _) _ _ Hin eq_refl).
  apply collapse_Forall; [by repeat constructor|].
  eapply Forall_impl; [apply collapse_outside; by repeat constructor|].
  intros c Hc <-. done.
Qed.

Lemma normalize_normal s : normal (normalize s).
Proof.
  unfold normal, normalize. repeat split.
  - apply drop_trailing_Forall, collapse_Forall; [by repeat constructor|].
    apply collapse_outside. by repeat constructor.
  - apply drop_trailing_Forall, collapse_Forall; [by repeat constructor|].
    apply collapse_Forall; [by repeat constructor|]. apply lower_all_fixed.
  - apply drop_trailing_no_double, collapse_no_double.
  - apply drop_trailing_idemp.
Qed.

Lemma normalize_fixed s : normal s → normalize s = s.
Proof.
  intros (Hsep & Hlow & Hdbl & Hdrop). unfold normalize.
  rewrite strip_nospace by (eapply Forall_impl; [exact Hsep|apply sep_class_space]).
  rewrite (lower_fixed s Hlow). rewrite (collapse_id _ _ _ s Hsep).
  destruct (collapse_single underscore "_"%char s underscore_one Hdbl) as [-> _].
  done.
Qed.

Lemma rename_col_idemp col : rename_col (rename_col col) = rename_col col.
Proof.
  rewrite <- (to_of_string (rename_col (rename_col col))).
  rewrite <- (to_of_string (rename_col col)) at 2.
  f_equal. rewrite !rename_col_normalize. apply normalize_fixed, normalize_normal.
Qed.

(** C4: [rename_header] succeeds on every table, a second application
    returns the table of the first unchanged (in particular its column
    names), and the example header of the unit test is renamed to
    col_1 ... col_5. *)
Theorem rename_header_idempotent {R} (df : DataFrame R) :
  (∃ once, rename_header (Some df) = (Some once, None)
           ∧ rename_header (Some once) = (Some once, None)
           ∧ columns once = map rename_col (columns df))
  ∧ map rename_col ["Col   1"; " Col(2)"; "Col,,,,3"; "col 4"; "COL  5"]
    = ["col_1"; "col_2"; "col_3"; "col_4"; "col_5"].
Proof.
  split.
  - eexists. split; [reflexivity|]. split; [|done].
    unfold rename_header, set_columns. simpl. do 2 f_equal. f_equal.
    rewrite <- list_fmap_compose. apply list_fmap_ext. intros _ c _. simpl.
    apply rename_col_idemp.
  - vm_compute. reflexivity.
Qed.

(** C8: a table without columns comes back as it is, with no error. *)
Theorem rename_header_no_columns {R} (rs : list R) :
  rename_header (Some (mkDataFrame [] rs)) = (Some (mkDataFrame [] rs), None).
Proof. reflexivity. Qed.
End RenameFacts.

(** ** Loader *)

Section LoaderFacts.
Import Text Loader Spec.
Context {R : Type}.

Lemma cols_lower_present (df : DataFrame R) name :
  name ∈ cols_lower df ↔ column_present df name.
Proof.
  unfold cols_lower, column_present. rewrite list_elem_of_fmap.
  split; intros (col & ? & ?); exists col; auto.
Qed.

Lemma missing_cols_spec (df : DataFrame R) name :
  name ∈ missing_cols df ↔ name ∈ mandatory_cols ∧ ¬ column_present df name.
Proof.
  unfold missing_cols. rewrite list_elem_of_filter, cols_lower_present. tauto.
Qed.

End LoaderFacts.

(** ** Persister *)

Section PersistFacts.
Import Text Persist.
Context {W R : Type} `{Storage W R}.

Lemma save_outputs_run (df : DataFrame R) (csv_path parquet_path : string) (s : state W) :
  save_outputs df csv_path parquet_path s
  = let c := to_csv df csv_path (world s) in
    let p := to_parquet df parquet_path c.1 in
    (mkState p.1 (log s ++ [csv_line csv_path c.2; parquet_line parquet_path p.2]),
     inr ()).
Proof.
  unfold save_outputs, io_bind, try_except, write, logging. cbn [world log].
  destruct (to_csv df csv_path (world s)) as [w1 [e1|]]; cbn [world log fst snd];
    destruct (to_parquet df parquet_path w1) as [w2 [e2|]]; cbn [world log fst snd];
    by rewrite <- app_assoc.
Qed.

(** C7: both writes are always attempted, the Parquet write on the
    world that the CSV attempt left, whatever either outcome; each
    attempt adds its line to the log and the call returns normally.  In
    particular, when the CSV write raises and leaves no file while the
    Parquet write succeeds and creates its file only, the Parquet file
    exists afterwards, the CSV file does not, and an error naming CSV is
    in the log. *)
Theorem save_outputs_independent (df : DataFrame R) (csv_path parquet_path : string)
    (s : state W) :
  (∃ w1 r1 w2 r2,
     to_csv df csv_path (world s) = (w1, r1)
     ∧ to_parquet df parquet_path w1 = (w2, r2)
     ∧ save_outputs df csv_path parquet_path s
       = (mkState w2 (log s ++ [csv_line csv_path r1; parquet_line parquet_path r2]),
          inr ()))
  ∧ (∀ w1 e w2,
       to_csv df csv_path (world s) = (w1, Some e) →
       path_exists w1 csv_path = false →
       to_parquet df parquet_path w1 = (w2, None) →
       path_exists w2 parquet_path = true →
       path_exists w2 csv_path = false →
       let after := save_outputs df csv_path parquet_path s in
       after.2 = inr ()
       ∧ path_exists (world after.1) parquet_path = true
       ∧ path_exists (world after.1) csv_path = false
       ∧ ∃ msg, (ERROR, msg) ∈ log after.1 ∧ substring_of "CSV" msg).
Proof.
  split.
  - destruct (to_csv df csv_path (world s)) as [w1 r1] eqn:Hc.
    destruct (to_parquet df parquet_path w1) as [w2 r2] eqn:Hp.
    exists w1, r1, w2, r2. split; [done|]. split; [done|].
    rewrite save_outputs_run. by rewrite Hc; cbn [fst snd]; rewrite Hp.
  - intros w1 e w2 Hc Hno Hp Hyes Hstill after. subst after.
    rewrite save_outputs_run. rewrite Hc; cbn [fst snd]; rewrite Hp; cbn [fst snd world log].
    split; [done|]. split; [done|]. split; [done|].
    eexists. split.
    + apply elem_of_app. right. apply elem_of_cons. left. reflexivity.
    + exists "Error saving ", (" to " +:+ csv_path +:+ ": " +:+ error_message e).
      reflexivity.
Qed.
End PersistFacts.

(** ** The theorems at the sample tables *)

Section Witnesses.
Import Text Stats Loader Persist Spec Samples.




Lemma first_year_filter_witness :
  rows basic = [basic_1; basic_2] ++ basic_3 :: [basic_4]
  ∧ ¬ whole_word_phrase (statistic_label basic_3)
  ∧ first_year_rows (rows basic) = [basic_1; basic_2; basic_4]
  ∧ (process_first_year_stats (H := no_text_numbers) basic).2
    = (process_first_year_stats (H := no_text_numbers)
         (mkDataFrame header [basic_1; basic_2; basic_4])).2.
Proof.
  destruct (first_year_filter (H := no_text_numbers) basic) as (_ & Hdrop & _ & Hfirst).
  split; [reflexivity|]. split; [exact Hfirst|].
  destruct (Hdrop [basic_1; basic_2] basic_3 [basic_4] eq_refl Hfirst) as [Hkept Hsame].
  split; [|exact Hsame]. rewrite Hkept. vm_compute. reflexivity.
Defined.




Lemma missing_count_cell_witness :
  ∃ e, (process_first_year_stats (H := no_text_numbers) count_gap).2
       = (None, Some ("Error transforming dataset: " +:+ error_message e))
       ∧ (usable_header (columns count_gap) → e = IntCastingNaNError).
Proof.
  assert (first_year_rows (rows count_gap) = [gap_1; gap_2; gap_3]) as Hk
    by (vm_compute; reflexivity).
  apply (missing_count_cell (H := no_text_numbers) count_gap
           (derive (H := no_text_numbers) gap_1) (derive (H := no_text_numbers) gap_2)).
  - rewrite Hk. apply list_elem_of_filter. split; [by vm_compute|].
    apply elem_of_cons. by left.
  - rewrite Hk. apply list_elem_of_filter. split; [by vm_compute|].
    apply elem_of_cons. right. apply elem_of_cons. by left.
  - rewrite Hk. intros d [_ Hd]%list_elem_of_filter. cbn [map] in Hd.
    repeat (apply elem_of_cons in Hd as [->|Hd];
            [intros [Hy Hs]; vm_compute in Hy, Hs;
             first [discriminate Hy | discriminate Hs]|]).
    by apply elem_of_nil in Hd.
Defined.

Lemma save_outputs_independent_witness :
  let fs := store {["/tmp/file.parquet"]} in
  let after :=
    save_outputs (H := fs) one_cell "/tmp/nonexistent_dir/file.csv" "/tmp/file.parquet"
      start in
  after.2 = inr ()
  ∧ path_exists (Storage := fs) (world after.1) "/tmp/file.parquet" = true
  ∧ path_exists (Storage := fs) (world after.1) "/tmp/nonexistent_dir/file.csv" = false
  ∧ ∃ msg, (ERROR, msg) ∈ log after.1 ∧ substring_of "CSV" msg.
Proof.
  intros fs after.
  destruct (save_outputs_independent (H := fs) one_cell
              "/tmp/nonexistent_dir/file.csv" "/tmp/file.parquet" start) as [_ Hcase].
  apply (Hcase ∅ (OSError "Cannot save file into a non-existent directory")
           {["/tmp/file.parquet" := "parquet"]}); by vm_compute.
Defined.
End Witnesses.

(** ** The rest of the pipeline *)

Section YearLabelFacts.
Import Text Re Stats Spec Loader Rename Persist Passes Digits Closed Grid Main Kept.







End YearLabelFacts.

Section ClosedFacts.
Import Text Re Stats Spec Loader Rename Persist Passes Digits Closed Grid Main Kept.
Context `{Numeric}.

Lemma sorted_unique_sorted l : StronglySorted String.le (sorted_unique l).
Proof. unfold sorted_unique. apply StronglySorted_merge_sort; apply _. Qed.

Lemma sorted_unique_NoDup l : NoDup (sorted_unique l).
Proof.
  unfold sorted_unique. rewrite merge_sort_Permutation. apply NoDup_remove_dups.
Qed.

Lemma sorted_unique_ext l1 l2 :
  (∀ x, x ∈ l1 ↔ x ∈ l2) → sorted_unique l1 = sorted_unique l2.
Proof.
  intros Hx. apply (StronglySorted_unique String.le); try apply sorted_unique_sorted.
  apply NoDup_Permutation; try apply sorted_unique_NoDup.
  intros x. by rewrite !sorted_unique_elem.
Qed.

Lemma head_filter_tagged {A B} `{EqDecision A} (g : A → B) (k : A) (l : list A) :
  head (filter (λ e : A * B, e.1 = k) (map (λ a, (a, g a)) l))
  = if decide (k ∈ l) then Some (k, g k) else None.
Proof.
  induction l as [|a l IH].
  - destruct (decide (k ∈ [])) as [Hin|_]; [by apply elem_of_nil in Hin|done].
  - cbn [map]. rewrite filter_cons. cbn [fst].
    destruct (decide (a = k)) as [->|Hne].
    + destruct (decide (k ∈ k :: l)) as [_|Hout]; [done|].
      exfalso. apply Hout, elem_of_cons; by left.
    + rewrite IH. destruct (decide (k ∈ l)) as [Hin|Hout].
      * destruct (decide (k ∈ a :: l)) as [_|Hout]; [done|].
        exfalso. apply Hout, elem_of_cons; by right.
      * destruct (decide (k ∈ a :: l)) as [Hin|_]; [|done].
        apply elem_of_cons in Hin as [->|Hin]; done.
Qed.

Lemma lookup_groupby agg rs b s :
  lookup_key (b, s) (groupby agg rs)
  = if decide ((b, s) ∈ map key_of rs) then Some (agg (group_values rs b s)) else None.
Proof.
  unfold lookup_key, groupby.
  rewrite (head_filter_tagged (λ k, agg (map d_value (filter (λ r, key_of r = k) rs)))).
  assert ((b, s) ∈ merge_sort key_le (remove_dups (map key_of rs))
          ↔ (b, s) ∈ map key_of rs) as Hiff
    by by rewrite merge_sort_Permutation, elem_of_remove_dups.
  repeat case_decide; simpl; try done; exfalso; tauto.
Qed.

Lemma pivot_columns_closed agg rs : w_columns (pivot (groupby agg rs)) = sexes rs.
Proof.
  unfold pivot, sexes. cbn [w_columns]. apply sorted_unique_ext.
  intros x. rewrite !list_elem_of_fmap. split.
  - intros (e & -> & He). apply (list_elem_of_fmap_2 fst) in He.
    apply groupby_keys in He as (d & Hd & Hk). exists d. split; [|done].
    destruct e as [k v]. simpl in *. by subst k.
  - intros (d & -> & Hd).
    assert (key_of d ∈ map fst (groupby agg rs)) as Hk by (apply groupby_keys; eauto).
    apply list_elem_of_fmap in Hk as (e & He & Hin). exists e. split; [|done].
    destruct e as [k v]. simpl in *. by subst k.
Qed.

Lemma pivot_index_closed agg rs : w_index (pivot (groupby agg rs)) = buckets rs.
Proof.
  unfold pivot, buckets, w_index. cbn [w_rows]. rewrite map_fst_tag.
  apply sorted_unique_ext.
  intros x. rewrite !list_elem_of_fmap. split.
  - intros (e & -> & He). apply (list_elem_of_fmap_2 fst) in He.
    apply groupby_keys in He as (d & Hd & Hk). exists d. split; [|done].
    destruct e as [k v]. simpl in *. by subst k.
  - intros (d & -> & Hd).
    assert (key_of d ∈ map fst (groupby agg rs)) as Hk by (apply groupby_keys; eauto).
    apply list_elem_of_fmap in Hk as (e & He & Hin). exists e. split; [|done].
    destruct e as [k v]. simpl in *. by subst k.
Qed.

Lemma pivot_rows_closed agg rs :
  w_rows (pivot (groupby agg rs))
  = map (λ b, (b, map (λ s, if decide ((b, s) ∈ map key_of rs)
                             then Some (agg (group_values rs b s)) else None)
                      (sexes rs)))
        (buckets rs).
Proof.
  transitivity (map (λ b, (b, map (λ s, lookup_key (b, s) (groupby agg rs))
                                  (w_columns (pivot (groupby agg rs)))))
                    (w_index (pivot (groupby agg rs)))).
  - unfold w_index at 1. unfold pivot at 1 3. cbn [w_rows]. by rewrite map_fst_tag.
  - rewrite pivot_columns_closed, pivot_index_closed.
    apply list_fmap_ext. intros _ b _. f_equal.
    apply list_fmap_ext. intros _ s _. apply lookup_groupby.
Qed.

Lemma pivot_closed agg rs :
  pivot (groupby agg rs)
  = mkWide (sexes rs)
      (map (λ b, (b, map (λ s, if decide ((b, s) ∈ map key_of rs)
                                then Some (agg (group_values rs b s)) else None)
                          (sexes rs)))
           (buckets rs)).
Proof.
  transitivity (mkWide (w_columns (pivot (groupby agg rs)))
                       (w_rows (pivot (groupby agg rs)))); [done|].
  by rewrite pivot_columns_closed, pivot_rows_closed.
Qed.

Lemma to_int_round0 q : to_int (round0 <$> Some q) = inr (round_half_even q).
Proof.
  unfold to_int, round0. cbn [fmap option_fmap option_map].
  rewrite Qfloor_Z, Qceiling_Z. by destruct (Qle_bool _ _).
Qed.

Lemma Forall2_map_eq {A B} (g : A → B) l k : Forall2 (λ x y, y = g x) l k → k = map g l.
Proof. induction 1 as [|x y l k -> _ IH]; simpl; [done|]. by rewrite IH. Qed.

Lemma mapM_cells (u : string → option Q) (g : string → Z) l cs :
  mapM (M := result) to_int (map (λ s, round0 <$> u s) l) = inr cs →
  (∀ s z, s ∈ l → to_int (round0 <$> u s) = inr z → z = g s) →
  cs = map g l.
Proof.
  revert cs. induction l as [|s l IH]; intros cs Hm Hg; simpl in Hm.
  - by injection Hm as <-.
  - apply bind_inr in Hm as (z & Hz & Hm). apply bind_inr in Hm as (k & Hk & Hm).
    injection Hm as <-. simpl. f_equal.
    + apply Hg; [apply elem_of_cons; by left|done].
    + apply IH; [done|]. intros s' z' Hs'. apply Hg, elem_of_cons. by right.
Qed.

Lemma group_values_nil rs b s : group_values rs b s = [] ↔ (b, s) ∉ map key_of rs.
Proof.
  unfold group_values. split.
  - intros Hnil (d & Hk & Hd)%list_elem_of_fmap.
    apply fmap_nil_inv in Hnil.
    assert (d ∈ filter (λ r, key_of r = (b, s)) rs) as Hin
      by (apply list_elem_of_filter; by split).
    rewrite Hnil in Hin. by apply elem_of_nil in Hin.
  - intros Hout. assert (filter (λ r, key_of r = (b, s)) rs = []) as ->; [|done].
    apply elem_of_nil_inv. intros d [Hk Hd]%list_elem_of_filter.
    apply Hout. rewrite <- Hk. by apply list_elem_of_fmap_2.
Qed.

Lemma counts_rows_closed rs cw :
  counts_wide rs = inr cw →
  w_columns cw = map (λ s, s +:+ "_count") (sexes (df_counts rs))
  ∧ w_rows cw = map (λ b, (b, map (count_cell (df_counts rs) b) (sexes (df_counts rs))))
                    (buckets (df_counts rs)).
Proof.
  unfold counts_wide, astype_int, counts_pivot. rewrite pivot_closed. intros Hm.
  apply bind_inr in Hm as (rows' & Hrows & Hm). injection Hm as <-.
  cbn [w_columns w_rows wide_map add_suffix] in *. split; [done|].
  set (C := df_counts rs) in *.
  revert rows' Hrows. induction (buckets C) as [|b bs IH]; intros rows' Hrows;
    simpl in Hrows.
  - by injection Hrows as <-.
  - apply bind_inr in Hrows as ([b' cs] & Hrow & Hrows).
    apply bind_inr in Hrows as (k & Hk & Hrows). injection Hrows as <-.
    apply bind_inr in Hrow as (cs' & Hcs & Hrow). injection Hrow as <- <-.
    simpl. f_equal; [|by apply IH]. f_equal.
    rewrite <- list_fmap_compose in Hcs.
    apply (mapM_cells (λ s, if decide ((b, s) ∈ map key_of C)
                            then Some (Qsum (group_values C b s)) else None)
                      (count_cell C b)) in Hcs; [done|].
    intros s z _. case_decide; [|done]. rewrite to_int_round0. by intros [= <-].
Qed.

Lemma perc_rows_closed rs :
  perc_wide rs
  = mkWide (map (λ s, s +:+ "_percent") (sexes (df_perc rs)))
      (map (λ b, (b, map (percent_cell (df_perc rs) b) (sexes (df_perc rs))))
           (buckets (df_perc rs))).
Proof.
  unfold perc_wide, perc_pivot. rewrite pivot_closed.
  unfold wide_map, add_suffix. cbn [w_columns w_rows]. f_equal.
  rewrite <- !list_fmap_compose. apply list_fmap_ext. intros _ b _. simpl. f_equal.
  rewrite <- !list_fmap_compose. apply list_fmap_ext. intros _ s _. simpl.
  unfold percent_cell. f_equal. case_decide as Hk.
  - destruct (group_values (df_perc rs) b s) eqn:Hg; [|done].
    by apply group_values_nil in Hg.
  - by apply group_values_nil in Hk as ->.
Qed.

Lemma merge_closed cc pc (f : string → list Z) (g : string → list Q) i1 i2 :
  merge_inner (mkWide cc (map (λ b, (b, f b)) i1)) (mkWide pc (map (λ b, (b, g b)) i2))
  = mkDataFrame ("year_range" :: cc ++ pc)
      (map (λ b, CStr b :: map CInt (f b) ++ map CFloat (g b)) (filter (λ b, b ∈ i2) i1)).
Proof.
  unfold merge_inner. cbn [w_columns w_rows]. f_equal.
  induction i1 as [|b i1 IH]; [done|].
  cbn [map omap list_omap]. rewrite filter_cons, (head_filter_tagged g b i2). cbn [fst snd].
  case_decide; cbn [mbind option_bind]; [|exact IH].
  cbn [map]. f_equal. exact IH.
Qed.

(** What a successful call returns, in closed form. *)
Lemma process_closed df out :
  (process_first_year_stats df).2 = (Some out, None) →
  out = table (df_counts (map derive (first_year_rows (rows df))))
              (df_perc (map derive (first_year_rows (rows df)))).
Proof.
  intros (cw & Hcw & ->)%process_Some%transform_inv.
  cbn [set_columns rows] in *.
  apply counts_rows_closed in Hcw as [Hcols Hrows].
  destruct cw as [cc cr]. cbn [w_columns w_rows] in *. subst cc cr.
  rewrite perc_rows_closed, merge_closed. unfold table. f_equal.
  apply list_fmap_ext. intros _ b _. by rewrite <- !list_fmap_compose.
Qed.
End ClosedFacts.

Section TableFacts.
Import Text Re Stats Spec Loader Rename Persist Passes Digits Closed Grid Main Kept.
Context `{Numeric}.

(** *** Column names *)

Lemma ends_differ s1 s2 (x y : string) :
  (∀ r1 r2, reverse (of_string x) ++ r1 ≠ reverse (of_string y) ++ r2) →
  s1 +:+ x ≠ s2 +:+ y.
Proof.
  intros Hxy Heq. apply (f_equal (λ t, reverse (of_string t))) in Heq.
  rewrite !of_string_app, !reverse_app in Heq. by apply Hxy in Heq.
Qed.

Lemma count_name_not_percent s1 s2 : s1 +:+ "_count" ≠ s2 +:+ "_percent".
Proof. apply ends_differ. intros r1 r2. by vm_compute. Qed.

Lemma year_range_not_count s : "year_range" ≠ s +:+ "_count".
Proof. apply (ends_differ "" s "year_range" "_count"). intros r1 r2. by vm_compute. Qed.

Lemma year_range_not_percent s : "year_range" ≠ s +:+ "_percent".
Proof. apply (ends_differ "" s "year_range" "_percent"). intros r1 r2. by vm_compute. Qed.

Lemma suffix_inj sfx : Inj (=) (=) (λ s : string, s +:+ sfx).
Proof. intros s1 s2. apply append_inv_tail. Qed.



Lemma find_year_range (cols : list string) :
  list_find (λ c, c = "year_range") ("year_range" :: cols) = Some (0%nat, "year_range").
Proof. apply list_find_Some. split; [done|]. split; [done|]. intros; lia. Qed.

(** Row [i] of the closed form is the row of the [i]-th listed range. *)
Lemma table_row counts perc i b :
  loc (table counts perc) i "year_range" = Some (CStr b)
  ↔ filter (λ b, b ∈ buckets perc) (buckets counts) !! i = Some b.
Proof.
  unfold loc, table. cbn [rows columns]. rewrite find_year_range.
  rewrite list_lookup_fmap.
  destruct (filter _ (buckets counts) !! i) as [b'|]; simpl; [|done].
  split; [by intros [= ->]|by intros [= ->]].
Qed.



Lemma sexes_elem rs s : s ∈ sexes rs ↔ ∃ d, d ∈ rs ∧ d_sex d = s.
Proof.
  unfold sexes. rewrite sorted_unique_elem, list_elem_of_fmap.
  split; intros (d & ? & ?); exists d; auto.
Qed.

End TableFacts.

Section AggregateFacts.
Import Text Re Stats Spec Loader Rename Persist Passes Digits Closed Grid Main Kept.
Context `{Numeric}.





End AggregateFacts.

Section TableTheorems.
Import Text Re Stats Spec Loader Rename Persist Passes Digits Closed Grid Main Kept.
Context `{Numeric}.

Lemma StronglySorted_filter {A} (R : relation A) (P : A → Prop) `{∀ x, Decision (P x)} l :
  StronglySorted R l → StronglySorted R (filter P l).
Proof.
  induction 1 as [|x l Hl IH Hx]; [constructor|].
  rewrite filter_cons. case_decide; [|done]. constructor; [done|].
  apply Forall_forall. intros y [_ Hy]%list_elem_of_filter.
  by apply (proj1 (Forall_forall _ _) Hx).
Qed.

Lemma StronglySorted_lookup {A} (R : relation A) l (i j : nat) x y :
  StronglySorted R l → (i < j)%nat → l !! i = Some x → l !! j = Some y → R x y.
Proof.
  intros Hl. revert i j. induction Hl as [|z l Hl IH Hz]; intros i j Hij Hi Hj; [done|].
  destruct j as [|j]; [lia|]. destruct i as [|i]; simpl in *.
  - injection Hi as ->. apply (proj1 (Forall_forall _ _) Hz).
    by eapply list_elem_of_lookup_2.
  - apply (IH i j); [lia|done..].
Qed.

(** X2: the rows of the result are in strictly ascending order of their
    year range. *)
Theorem rows_ascending (df : DataFrame RawRecord) (out : DataFrame (list cell))
    (i j : nat) (b1 b2 : string) :
  (process_first_year_stats df).2 = (Some out, None) →
  (i < j)%nat →
  loc out i "year_range" = Some (CStr b1) →
  loc out j "year_range" = Some (CStr b2) →
  String.le b1 b2 ∧ b1 ≠ b2.
Proof.
  intros ->%process_closed Hij Hi%table_row Hj%table_row. split.
  - eapply (StronglySorted_lookup String.le); [|exact Hij|exact Hi|exact Hj].
    apply StronglySorted_filter, sorted_unique_sorted.
  - intros <-. assert (i = j); [|lia].
    eapply NoDup_lookup; [|exact Hi|exact Hj].
    apply NoDup_filter, sorted_unique_NoDup.
Qed.



(** *** Sex labels *)

Lemma replace_sex s :
  replace sex_names s
  = if decide (s = "M") then "Male"
    else if decide (s = "F") then "Female"
    else if decide (s = "Both") then "Both sexes" else s.
Proof.
  unfold replace, sex_names. repeat case_decide; subst; try done.
  by rewrite !lookup_insert_ne, lookup_singleton_ne by done.
Qed.

Lemma derived_sex_not_short r : d_sex (derive r) ∉ ["M"; "F"; "Both"].
Proof.
  unfold derive. cbn [d_sex]. rewrite replace_sex, !elem_of_cons, elem_of_nil.
  repeat case_decide; intros [?|[?|[?|[]]]]; congruence.
Qed.

(** X5: the short sex codes never reach the result. *)
Theorem sex_labels (df : DataFrame RawRecord) :
  (∀ r, d_sex (derive r)
        = if decide (sex r = "M") then "Male"
          else if decide (sex r = "F") then "Female"
          else if decide (sex r = "Both") then "Both sexes" else sex r)
  ∧ (∀ out name short,
       (process_first_year_stats df).2 = (Some out, None) →
       name ∈ columns out → short ∈ ["M"; "F"; "Both"] →
       name ≠ short +:+ "_count" ∧ name ≠ short +:+ "_percent").
Proof.
  split; [intros r; apply replace_sex|].
  intros out name short ->%process_closed Hname Hshort.
  unfold table in Hname. cbn [columns] in Hname.
  assert (∀ rs : list Derived, rs ⊆ map derive (first_year_rows (rows df)) →
          short ∉ sexes rs) as Hnot.
  { intros rs Hrs (d & Hd & <-)%sexes_elem.
    apply Hrs, list_elem_of_fmap in Hd as (r & -> & _).
    by apply (derived_sex_not_short r). }
  assert (short ∉ sexes (df_counts (map derive (first_year_rows (rows df))))) as Hc.
  { apply Hnot. intros d [_ Hd]%list_elem_of_filter. done. }
  assert (short ∉ sexes (df_perc (map derive (first_year_rows (rows df))))) as Hp.
  { apply Hnot. intros d [_ Hd]%list_elem_of_filter. done. }
  apply elem_of_cons in Hname as [->|Hname].
  { split; [apply year_range_not_count|apply year_range_not_percent]. }
  apply elem_of_app in Hname as [(s & -> & Hs)%list_elem_of_fmap
                                |(s & -> & Hs)%list_elem_of_fmap].
  - split; [|apply count_name_not_percent]. by intros ->%append_inv_tail.
  - split; [|by intros ->%append_inv_tail].
    intros Heq. symmetry in Heq. by apply count_name_not_percent in Heq.
Qed.

(** *** Year ranges *)

End TableTheorems.

Section LoaderExtra.
Import Text Re Stats Spec Loader Rename Persist Passes Digits Closed Grid Main Kept.
Context {R : Type}.

(** X7: the loader accepts exactly the tables that were read and have
    every mandatory column, and returns them as read. *)
Theorem load_dataset_accepts (read_csv : string → result (DataFrame R)) (url : string)
    (df : DataFrame R) :
  load_dataset read_csv url = (Some df, None)
  ↔ read_csv url = inr df ∧ ∀ name, name ∈ mandatory_cols → column_present df name.
Proof.
  unfold load_dataset. destruct (read_csv url) as [e|df'] eqn:Hread.
  - split; [done|]. by intros [? _].
  - destruct (missing_cols df') as [|m ms] eqn:Hmiss.
    + split.
      * intros [= ->]. split; [done|]. intros name Hname.
        destruct (decide (name ∈ cols_lower df)) as [Hin|Hout];
          [by apply cols_lower_present|].
        assert (name ∈ missing_cols df) as Hm
          by (apply list_elem_of_filter; by split).
        rewrite Hmiss in Hm. by apply elem_of_nil in Hm.
      * by intros [[= ->] _].
    + split; [done|]. intros [[= ->] Hall].
      assert (m ∈ missing_cols df) as Hm by (rewrite Hmiss; apply elem_of_cons; by left).
      apply missing_cols_spec in Hm as [Hm Habs]. exfalso. by apply Habs, Hall.
Qed.

End LoaderExtra.

Section StageFacts.
Import Text Re Stats Spec Loader Rename Persist Passes Digits Closed Grid Main Kept.
Context `{Numeric}.

(** *** Column lookups *)

Lemma count_label_pos name cols : name ∈ cols ↔ (0 < count_label name cols)%nat.
Proof.
  unfold count_label. split.
  - intros Hin. assert (name ∈ filter (λ c, c = name) cols) as Hf
      by (apply list_elem_of_filter; by split).
    destruct (filter _ cols); [by apply elem_of_nil in Hf|simpl; lia].
  - intros Hpos. destruct (filter (λ c, c = name) cols) as [|c l] eqn:Hf; [simpl in *; lia|].
    assert (c ∈ filter (λ c, c = name) cols) as Hc by (rewrite Hf; apply elem_of_cons; by left).
    by apply list_elem_of_filter in Hc as [-> ?].
Qed.

Lemma count_label_NoDup name cols :
  NoDup cols → count_label name cols = if decide (name ∈ cols) then 1%nat else 0%nat.
Proof.
  intros Hnd. unfold count_label. induction Hnd as [|c l Hc _ IH].
  - by rewrite decide_False by apply not_elem_of_nil.
  - rewrite filter_cons. destruct (decide (c = name)) as [->|Hne].
    + rewrite decide_True by (apply elem_of_cons; by left). simpl.
      rewrite IH. by rewrite decide_False.
    + rewrite IH. destruct (decide (name ∈ l)) as [Hin|Hout].
      * rewrite decide_True; [done|]. apply elem_of_cons. by right.
      * rewrite decide_False; [done|]. rewrite elem_of_cons. intros [->|?]; done.
Qed.

Lemma getitem_cases cols name :
  ((name ∉ cols) ∧ getitem cols name = inl (KeyError name))
  ∨ ((name ∈ cols)
     ∧ (getitem cols name = inr () ∨ getitem cols name = inl (AmbiguousLabel name))).
Proof.
  unfold getitem. pose proof (count_label_pos name cols) as Hpos.
  destruct (count_label name cols) as [|[|n]].
  - left. split; [|done]. intros Hin%Hpos. lia.
  - right. split; [apply Hpos; lia|by left].
  - right. split; [apply Hpos; lia|by right].
Qed.

Lemma setitem_cases cols name :
  (∃ cols', setitem cols name = inr cols' ∧ ∀ other, other ∈ cols → other ∈ cols')
  ∨ setitem cols name = inl (AmbiguousLabel name).
Proof.
  unfold setitem. destruct (count_label name cols) as [|[|n]]; [| |by right].
  - left. eexists. split; [done|]. intros other Ho. apply elem_of_app. by left.
  - left. eexists. split; done.
Qed.

Lemma astype_int_error w e : astype_int w = inl e → e = IntCastingNaNError.
Proof.
  unfold astype_int. destruct (mapM _ (w_rows w)) as [e'|rs] eqn:Hm;
    cbn [mbind result_bind]; [|done].
  intros [= <-]. induction (w_rows w) as [|r l IH]; simpl in Hm; [done|].
  destruct (mapM to_int r.2) as [e1|cs] eqn:Hr; cbn [mbind result_bind] in Hm.
  - injection Hm as <-. clear IH. induction (r.2) as [|o os IH]; simpl in Hr; [done|].
    destruct (to_int o) as [e2|z] eqn:Ho; cbn [mbind result_bind] in Hr.
    + injection Hr as <-. by eapply to_int_error.
    + destruct (mapM to_int os) as [e3|k]; cbn [mbind result_bind] in Hr; [|done].
      injection Hr as <-. by apply IH.
  - destruct (mapM _ l) as [e2|k]; cbn [mbind result_bind] in Hm; [|done].
    injection Hm as <-. by apply IH.
Qed.

Ltac key_error_case :=
  right; right; eexists; split; [reflexivity|]; split; [rewrite !elem_of_cons; tauto|done].
Ltac ambiguous_case := right; left; eexists; reflexivity.

(** The exceptions of the [try] block: a [KeyError] names a label that
    the header lacks. *)
Lemma pivots_error df e :
  pivots df = inl e →
  e = IntCastingNaNError ∨ (∃ name, e = AmbiguousLabel name)
  ∨ (∃ name, e = KeyError name ∧ name ∈ lookup_order ∧ name ∉ columns df).
Proof.
  unfold pivots, lookup_order.
  destruct (getitem_cases (columns df) "statistic label") as [[Ho Hg]|[Hi [Hg|Hg]]];
    rewrite Hg; cbn [mbind result_bind];
    [intros [= <-]; by key_error_case | | intros [= <-]; by ambiguous_case].
  destruct (getitem_cases (columns df) "sex") as [[Ho Hg1]|[Hi1 [Hg1|Hg1]]];
    rewrite Hg1; cbn [mbind result_bind];
    [intros [= <-]; by key_error_case | | intros [= <-]; by ambiguous_case].
  destruct (getitem_cases (columns df) "value") as [[Ho Hg2]|[Hi2 [Hg2|Hg2]]];
    rewrite Hg2; cbn [mbind result_bind];
    [intros [= <-]; by key_error_case | | intros [= <-]; by ambiguous_case].
  destruct (getitem_cases (columns df) "year") as [[Ho Hg3]|[Hi3 [Hg3|Hg3]]];
    rewrite Hg3; cbn [mbind result_bind];
    [intros [= <-]; by key_error_case | | intros [= <-]; by ambiguous_case].
  destruct (setitem_cases (columns df) "year_group") as [(c1 & Hs1 & Hc1)|Hs1];
    rewrite Hs1; cbn [mbind result_bind]; [|intros [= <-]; by ambiguous_case].
  destruct (setitem_cases c1 "year_range") as [(c2 & Hs2 & Hc2)|Hs2];
    rewrite Hs2; cbn [mbind result_bind]; [|intros [= <-]; by ambiguous_case].
  destruct (getitem_cases c2 "unit") as [[Ho Hg4]|[Hi4 [Hg4|Hg4]]];
    rewrite Hg4; cbn [mbind result_bind]; [| |intros [= <-]; by ambiguous_case].
  - intros [= <-]. right; right. exists "unit". split; [done|].
    split; [rewrite !elem_of_cons; tauto|].
    intros Hu. by apply Ho, Hc2, Hc1.
  - destruct (counts_wide _) as [e'|cw] eqn:Hcw; cbn [mbind result_bind]; [|done].
    intros [= <-]. left. by eapply astype_int_error.
Qed.

Lemma transform_error df e : transform df = inl e ↔ pivots df = inl e.
Proof.
  unfold transform. destruct (pivots df) as [e'|p]; cbn [mbind result_bind mret result_ret].
  - split; by intros [= ->].
  - split; intros ?; discriminate.
Qed.

(** X8: a table that the loader accepts has every column that the
    aggregator looks up: the aggregator does not fail on it with a
    [KeyError]. *)
Theorem accepted_table_has_columns (read_csv : string → result (DataFrame RawRecord))
    (url : string) (df : DataFrame RawRecord) (key : string) :
  load_dataset read_csv url = (Some df, None) →
  (∀ name, name ∈ lookup_order → name ∈ canonical_columns (columns df))
  ∧ transform (set_columns df (canonical_columns (columns df))) ≠ inl (KeyError key).
Proof.
  intros Hload.
  assert (∀ name, name ∈ lookup_order → name ∈ canonical_columns (columns df)) as Hall.
  { intros name Hname. unfold load_dataset in Hload.
    destruct (read_csv url) as [e|df']; [done|].
    destruct (missing_cols df') as [|m ms] eqn:Hmiss; [|done]. injection Hload as ->.
    destruct (decide (name ∈ canonical_columns (columns df))) as [|Hout]; [done|].
    assert (name ∈ missing_cols df) as Hm.
    { apply list_elem_of_filter. split; [done|].
      unfold lookup_order in Hname. unfold mandatory_cols.
      rewrite !elem_of_cons in Hname |- *. tauto. }
    rewrite Hmiss in Hm. by apply elem_of_nil in Hm. }
  assert (transform (set_columns df (canonical_columns (columns df))) ≠ inl (KeyError key))
    as Hno.
  { intros [Hc|[[n Hc]|(n & Hc & Hn & Hout)]]%transform_error%pivots_error; [done..|].
    by apply Hout, Hall. }
  by split.
Qed.

Lemma getitem_NoDup cols name :
  NoDup cols →
  getitem cols name = if decide (name ∈ cols) then inr () else inl (KeyError name).
Proof. intros Hnd. unfold getitem. rewrite count_label_NoDup by done. by case_decide. Qed.

(** X9: with a header without repeated names, the aggregator fails on
    the first label it looks up and does not find, and names it. *)
Theorem missing_column_error (df : DataFrame RawRecord) (name : string) :
  NoDup (canonical_columns (columns df)) →
  first_missing (canonical_columns (columns df)) = Some name →
  (process_first_year_stats df).2
  = (None, Some ("Error transforming dataset: '" +:+ name +:+ "'")).
Proof.
  intros Hnd. unfold process_first_year_stats, transform, pivots. cbn [snd set_columns columns].
  set (cols := canonical_columns (columns df)) in *.
  unfold first_missing, lookup_order.
  rewrite !getitem_NoDup by done.
  rewrite filter_cons. destruct (decide ("statistic label" ∈ cols)) as [H1|H1];
    [rewrite decide_False by tauto|rewrite decide_True by done; by intros [= <-]].
  rewrite filter_cons. destruct (decide ("sex" ∈ cols)) as [H2|H2];
    [rewrite decide_False by tauto|rewrite decide_True by done; by intros [= <-]].
  rewrite filter_cons. destruct (decide ("value" ∈ cols)) as [H3|H3];
    [rewrite decide_False by tauto|rewrite decide_True by done; by intros [= <-]].
  rewrite filter_cons. destruct (decide ("year" ∈ cols)) as [H4|H4];
    [rewrite decide_False by tauto|rewrite decide_True by done; by intros [= <-]].
  cbn [mbind result_bind].
  destruct (setitem_ok cols "year_group") as (c1 & -> & Hc1).
  { rewrite count_label_NoDup by done. case_decide; lia. }
  cbn [mbind result_bind].
  destruct (setitem_ok c1 "year_range") as (c2 & -> & Hc2).
  { rewrite Hc1, count_label_NoDup by done. case_decide; lia. }
  cbn [mbind result_bind].
  unfold getitem. rewrite Hc2, Hc1, count_label_NoDup by done.
  rewrite filter_cons. destruct (decide ("unit" ∈ cols)) as [H5|H5];
    [rewrite decide_False by tauto|rewrite decide_True by done; by intros [= <-]].
  done.
Qed.
End StageFacts.

Section StripFacts.
Import Text Re Stats Spec Loader Rename Persist Passes Digits Closed Grid Main Kept.

Lemma lower_idemp s : lower (lower s) = lower s.
Proof.
  unfold lower. rewrite <- list_fmap_compose. apply list_fmap_ext.
  intros _ c _. apply lower_char_idemp.
Qed.

Lemma drop_trailing_snoc cls t x :
  drop_trailing cls (t ++ [x]) = if cls x then drop_trailing cls t else t ++ [x].
Proof.
  induction t as [|c t IH]; simpl.
  - rewrite andb_true_r. by destruct (cls x).
  - rewrite IH, forallb_app. simpl. rewrite andb_true_r.
    destruct (cls x); [by rewrite andb_true_r|]. by rewrite !andb_false_r.
Qed.

(** [rstrip] drops the white space that ends the text. *)
Lemma rstrip_drop s : rstrip s = drop_trailing is_space s.
Proof.
  unfold rstrip. induction s as [|x s IH] using rev_ind; [done|].
  rewrite reverse_snoc, drop_trailing_snoc. simpl.
  destruct (is_space x); [done|]. by rewrite reverse_cons, reverse_involutive.
Qed.

Lemma lstrip_head s : from_option is_space false (head (lstrip s)) = false.
Proof. induction s as [|c s IH]; simpl; [done|]. by destruct (is_space c) eqn:Hc; simpl. Qed.

Lemma lstrip_fixed s : from_option is_space false (head s) = false → lstrip s = s.
Proof. destruct s as [|c s]; simpl; [done|]. by intros ->. Qed.

Lemma strip_idemp s : strip (strip s) = strip s.
Proof.
  unfold strip. rewrite !rstrip_drop.
  rewrite (lstrip_fixed (drop_trailing _ _)).
  - apply drop_trailing_idemp.
  - destruct (drop_trailing_head is_space (lstrip s)) as [-> | ->]; [done|].
    apply lstrip_head.
Qed.

Lemma canonical_name_idemp c :
  str_lower (str_strip (str_lower (str_strip c))) = str_lower (str_strip c).
Proof.
  rewrite str_strip_lower. unfold str_lower, str_strip.
  by rewrite !of_to_string, lower_idemp, strip_idemp.
Qed.

Lemma canonical_columns_idemp cols :
  canonical_columns (canonical_columns cols) = canonical_columns cols.
Proof.
  unfold canonical_columns. rewrite <- list_fmap_compose. apply list_fmap_ext.
  intros _ c _. apply canonical_name_idemp.
Qed.
End StripFacts.

Section RerunFacts.
Import Text Re Stats Spec Loader Rename Persist Passes Digits Closed Grid Main Kept.
Context `{Numeric}.

(** X10: the in-place change of the header is idempotent: a second call
    on the table that the first call left returns the same pair and
    leaves the table as it is; the loader's check does not see the
    change. *)
Theorem process_rerun (df : DataFrame RawRecord) :
  process_first_year_stats (process_first_year_stats df).1 = process_first_year_stats df
  ∧ missing_cols (process_first_year_stats df).1 = missing_cols df.
Proof.
  unfold process_first_year_stats, missing_cols, cols_lower. cbn [fst set_columns columns rows].
  fold (canonical_columns (canonical_columns (columns df))).
  fold (canonical_columns (columns df)).
  by rewrite canonical_columns_idemp.
Qed.
End RerunFacts.

Section RenameExtra.
Import Text Re Stats Spec Loader Rename Persist Passes Digits Closed Grid Main Kept.

Lemma lower_fixed_not_upper c : lower_char c = c → is_upper c = false.
Proof. destruct c as [[] [] [] [] [] [] [] []]; vm_compute; congruence. Qed.

Lemma no_double_inside cls pre x y post :
  no_double cls (pre ++ x :: y :: post) = true → cls x && cls y = false.
Proof.
  induction pre as [|c pre IH]; simpl.
  - intros [Hxy _]%andb_true_iff. by apply negb_true_iff in Hxy.
  - intros [_ Hrest]%andb_true_iff. by apply IH.
Qed.

Lemma drop_trailing_length cls s : (length (drop_trailing cls s) ≤ length s)%nat.
Proof.
  induction s as [|c s IH]; simpl; [done|].
  destruct (cls c && forallb cls s); simpl; lia.
Qed.

Lemma drop_trailing_last cls pre x :
  drop_trailing cls (pre ++ [x]) = pre ++ [x] → cls x = false.
Proof.
  rewrite drop_trailing_snoc. destruct (cls x); [|done]. intros Heq.
  pose proof (drop_trailing_length cls pre) as Hlen. rewrite Heq, length_app in Hlen.
  simpl in Hlen. lia.
Qed.

(** X11: a renamed column name has no upper-case letter and no white
    space, comma or parenthesis, no two underscores in a row and no
    underscore at its end. *)
Theorem renamed_name_form (col : string) :
  Forall (λ c, is_upper c = false ∧ sep_class c = false) (of_string (rename_col col))
  ∧ ¬ substring_of "__" (rename_col col)
  ∧ ¬ (∃ pre, rename_col col = pre +:+ "_").
Proof.
  destruct (normalize_normal (of_string col)) as (Hsep & Hlow & Hdbl & Hdrop).
  rewrite <- rename_col_normalize in Hsep, Hlow, Hdbl, Hdrop.
  split; [|split].
  - apply Forall_forall. intros c Hc. split.
    + by apply lower_fixed_not_upper, (proj1 (Forall_forall _ _) Hlow).
    + by apply (proj1 (Forall_forall _ _) Hsep).
  - intros (pre & post & Heq). rewrite Heq, !of_string_app in Hdbl.
    change (of_string "__") with ["_"%char; "_"%char] in Hdbl. simpl in Hdbl.
    by apply no_double_inside in Hdbl.
  - intros (pre & Heq). rewrite Heq, of_string_app in Hdrop.
    change (of_string "_") with ["_"%char] in Hdrop.
    by apply drop_trailing_last in Hdrop.
Qed.
End RenameExtra.

Section KeptFacts.
Import Text Re Stats Spec Loader Rename Persist Passes Digits Closed Grid Main Kept.

Lemma plain_lower c : plain (lower_char c) ↔ plain c.
Proof.
  unfold plain. destruct c as [[] [] [] [] [] [] [] []]; vm_compute; tauto.
Qed.

Lemma plain_not_space c : is_space c = true → ¬ plain c.
Proof. unfold plain, sep_class. intros -> [Hs _]. done. Qed.

Lemma filter_plain_lstrip s : filter plain (lstrip s) = filter plain s.
Proof.
  unfold chars.
  induction s as [|c s IH]; cbn [lstrip]; [done|]. destruct (is_space c) eqn:Hc; [|done].
  rewrite IH. symmetry. apply filter_cons_False. by apply plain_not_space.
Qed.

Lemma filter_plain_drop cls s :
  (∀ c, cls c = true → ¬ plain c) →
  filter plain (drop_trailing cls s) = filter plain s.
Proof.
  unfold chars. intros Hcls. induction s as [|c s IH]; cbn [drop_trailing]; [done|].
  destruct (cls c && forallb cls s) eqn:Hall.
  - apply andb_true_iff in Hall as [Hc Hs]. symmetry.
    apply elem_of_nil_inv. intros x [Hx Hin]%list_elem_of_filter.
    apply elem_of_cons in Hin as [->|Hin]; [by apply (Hcls c)|].
    rewrite forallb_forall in Hs. apply (Hcls x); [|done].
    apply Hs. by apply list_elem_of_In.
  - rewrite !filter_cons, IH. done.
Qed.

Lemma filter_plain_lower s : filter plain (lower s) = lower (filter plain s).
Proof.
  unfold lower, chars. induction s as [|c s IH]; [done|]. cbn [map].
  rewrite !filter_cons, IH.
  destruct (decide (plain (lower_char c))) as [Hp|Hp], (decide (plain c)) as [Hq|Hq];
    try done; exfalso; pose proof (plain_lower c); tauto.
Qed.

Lemma filter_plain_collapse cls b s :
  (∀ c, cls c = true → ¬ plain c) →
  filter plain (collapse cls ["_"%char] b s) = filter plain s.
Proof.
  unfold chars. intros Hcls. revert b. induction s as [|c s IH]; intros b; cbn [collapse]; [done|].
  destruct (cls c) eqn:Hc.
  - rewrite (filter_cons_False _ c) by by apply Hcls.
    destruct b; [apply IH|]. cbn [app]. rewrite filter_cons_False; [apply IH|].
    by intros [_ ?].
  - by rewrite !filter_cons, IH.
Qed.

Lemma filter_plain_normalize s : filter plain (normalize s) = lower (filter plain s).
Proof.
  unfold normalize, strip. rewrite rstrip_drop. unfold chars.
  rewrite filter_plain_drop by (intros c Hc [_ Hu]; congruence).
  rewrite !filter_plain_collapse.
  - rewrite filter_plain_lower. f_equal.
    rewrite filter_plain_drop by apply plain_not_space.
    apply filter_plain_lstrip.
  - intros c Hc [Hs _]. congruence.
  - intros c Hc [_ Hu]. congruence.
Qed.

(** X12: the header normaliser keeps every character of a name that is
    not a separator or an underscore, in order and lowercased; a name
    without such characters becomes the empty name. *)
Theorem rename_keeps_plain (col : string) :
  filter plain (of_string (rename_col col)) = lower (filter plain (of_string col))
  ∧ (filter plain (of_string col) = [] → rename_col col = "").
Proof.
  assert (filter plain (of_string (rename_col col)) = lower (filter plain (of_string col)))
    as Hkeep by (rewrite rename_col_normalize; apply filter_plain_normalize).
  split; [done|]. intros Hnone. rewrite Hnone in Hkeep.
  destruct (normalize_normal (of_string col)) as (Hsep & _ & _ & Hdrop).
  rewrite <- rename_col_normalize in Hsep, Hdrop.
  apply of_string_inj. change (of_string "") with (@nil ascii).
  remember (of_string (rename_col col)) as r eqn:Hr. clear Hr. unfold chars in *.
  destruct r as [|x t _] using rev_ind; [done|]. exfalso.
  assert (x ∈ t ++ [x]) as Hx by (apply elem_of_app; right; apply elem_of_cons; by left).
  assert (underscore x = true) as Hu.
  { destruct (underscore x) eqn:Hux; [done|].
    assert (x ∈ filter plain (t ++ [x])) as Hin.
    { apply list_elem_of_filter. split; [|done]. split; [|done].
      by apply (proj1 (Forall_forall _ _) Hsep). }
    rewrite Hkeep in Hin. by apply elem_of_nil in Hin. }
  apply drop_trailing_last in Hdrop. congruence.
Qed.
End KeptFacts.

Section MainFacts.
Import Text Re Stats Spec Loader Rename Persist Passes Digits Closed Grid Main Kept.
Context {W : Type} `{Numeric} `{Storage W (list cell)}.

Lemma load_dataset_cases {R} (read_csv : string → result (DataFrame R)) (url : string) :
  (∃ df, load_dataset read_csv url = (Some df, None) ∧ read_csv url = inr df)
  ∨ (∃ msg, load_dataset read_csv url = (None, Some msg)).
Proof.
  unfold load_dataset. destruct (read_csv url) as [e|df]; [right; by eexists|].
  destruct (missing_cols df); [left; by eexists|right; by eexists].
Qed.

Lemma process_cases (df : DataFrame RawRecord) :
  (∃ out, (process_first_year_stats df).2 = (Some out, None))
  ∨ (∃ msg, (process_first_year_stats df).2 = (None, Some msg)).
Proof.
  unfold process_first_year_stats. cbn [snd].
  destruct (transform _); [right|left]; by eexists.
Qed.

(** X13: the pipeline never raises, and it only adds lines to the log. *)
Theorem main_returns (read_csv : string → result (DataFrame RawRecord))
    (url csv_path parquet_path : string) (s : state W) :
  (main read_csv url csv_path parquet_path s).2 = inr ()
  ∧ ∃ lines, log (main read_csv url csv_path parquet_path s).1 = log s ++ lines.
Proof.
  unfold main, io_bind, log_lines, io_ret. cbn [world log].
  destruct (load_dataset_cases read_csv url) as [(df & -> & _)|(msg & ->)];
    cbn [fst snd]; [|split; [done|by eexists]].
  destruct (process_cases df) as [(out & ->)|(msg & ->)];
    cbn [fst snd world log]; [|split; [done|]; rewrite <- app_assoc; by eexists].
  unfold rename_header_log. cbn [rename_header fst snd world log].
  rewrite save_outputs_run. cbn [fst snd world log]. split; [done|].
  rewrite <- !app_assoc. by eexists.
Qed.

(** X14: when the loader or the aggregator returns an error message, no
    writer is called: the world stays as it was, and the last line of
    the log is that message, at level ERROR. *)
Theorem main_stops (read_csv : string → result (DataFrame RawRecord))
    (url csv_path parquet_path : string) (s : state W) (msg : string) :
  (load_dataset read_csv url).2 = Some msg
  ∨ (∃ df, (load_dataset read_csv url).1 = Some df
           ∧ (process_first_year_stats df).2.2 = Some msg) →
  world (main read_csv url csv_path parquet_path s).1 = world s
  ∧ last (log (main read_csv url csv_path parquet_path s).1) = Some (ERROR, msg).
Proof.
  unfold main, io_bind, log_lines, io_ret, load_dataset_log, process_log. cbn [world log].
  destruct (load_dataset_cases read_csv url) as [(df & -> & Hread)|(msg' & ->)];
    cbn [fst snd]; intros [Hmsg|(df' & Hdf & Hmsg)]; try done.
  - injection Hdf as <-.
    destruct (process_cases df) as [(out & Hp)|(msg' & Hp)];
      rewrite Hp in Hmsg |- *; cbn [fst snd world log] in *; [done|].
    injection Hmsg as ->. split; [done|]. by rewrite !last_snoc.
  - injection Hmsg as ->. split; [done|].
    cbn [log]. rewrite app_assoc. by rewrite last_snoc.
Qed.

(** X15: when the loader accepts the table and the aggregator returns a
    table, the pipeline is the two writes of that table under its
    renamed header, after the line of the loader and the line of the
    renaming. *)
Theorem main_saves (read_csv : string → result (DataFrame RawRecord))
    (url csv_path parquet_path : string) (s : state W)
    (df : DataFrame RawRecord) (out : DataFrame (list cell)) :
  (load_dataset read_csv url).1 = Some df →
  (process_first_year_stats df).2.1 = Some out →
  main read_csv url csv_path parquet_path s
  = save_outputs (set_columns out (map rename_col (columns out))) csv_path parquet_path
      (mkState (world s)
         (log s ++ [(INFO, "Dataset loaded successfully with "
                           +:+ str_of_Z (Z.of_nat (length (rows df))) +:+ " rows and "
                           +:+ str_of_Z (Z.of_nat (length (columns df))) +:+ " columns");
                    (INFO, "Headers renamed successfully")])).
Proof.
  unfold main, io_bind, log_lines, io_ret, load_dataset_log, process_log. cbn [world log].
  destruct (load_dataset_cases read_csv url) as [(df' & -> & Hread)|(msg' & ->)];
    cbn [fst snd]; [|done]. intros [= ->]. rewrite Hread.
  destruct (process_cases df) as [(out' & ->)|(msg' & ->)]; cbn [fst snd world log]; [|done].
  intros [= ->]. unfold rename_header_log. cbn [rename_header fst snd world log].
  by rewrite !app_nil_r, <- app_assoc.
Qed.
End MainFacts.

Section ExtraWitnesses.
Import Text Re Stats Spec Loader Rename Persist Passes Digits Closed Grid Main Kept.
Import Samples Samples2.

Lemma grid_run :
  (process_first_year_stats (H := no_text_numbers) grid).2 = (Some grid_out, None).
Proof. vm_compute. reflexivity. Defined.



Lemma rows_ascending_witness :
  (process_first_year_stats (H := no_text_numbers) grid).2 = (Some grid_out, None)
  ∧ loc grid_out 0 "year_range" = Some (CStr "2000-2004")
  ∧ loc grid_out 1 "year_range" = Some (CStr "2010-2014")
  ∧ String.le "2000-2004" "2010-2014" ∧ "2000-2004" ≠ "2010-2014".
Proof.
  split; [exact grid_run|]. split; [reflexivity|]. split; [reflexivity|].
  apply (rows_ascending (H := no_text_numbers) grid grid_out 0 1);
    [exact grid_run | lia | reflexivity ..].
Defined.



Lemma sex_labels_witness :
  "Male_count" ∈ columns grid_out
  ∧ "Male_count" ≠ "M" +:+ "_count" ∧ "Male_count" ≠ "M" +:+ "_percent".
Proof.
  assert ("Male_count" ∈ columns grid_out) as Hin by (vm_compute; repeat constructor).
  split; [exact Hin|].
  apply (proj2 (sex_labels (H := no_text_numbers) grid) grid_out "Male_count" "M" grid_run Hin).
  apply elem_of_cons. by left.
Defined.

Lemma accepted_table_has_columns_witness :
  load_dataset read_grid "http://url123.com" = (Some grid, None)
  ∧ (∀ name, name ∈ lookup_order → name ∈ canonical_columns (columns grid))
  ∧ transform (H := no_text_numbers) (set_columns grid (canonical_columns (columns grid)))
    ≠ inl (KeyError "sex").
Proof.
  split; [reflexivity|].
  exact (accepted_table_has_columns (H := no_text_numbers) read_grid "http://url123.com"
           grid "sex" eq_refl).
Defined.

Lemma missing_column_error_witness :
  first_missing (canonical_columns (columns no_sex)) = Some "sex"
  ∧ (process_first_year_stats (H := no_text_numbers) no_sex).2
    = (None, Some ("Error transforming dataset: '" +:+ "sex" +:+ "'")).
Proof.
  split; [by vm_compute|].
  apply (missing_column_error (H := no_text_numbers) no_sex "sex"); [|by vm_compute].
  vm_compute. repeat constructor; rewrite ?elem_of_cons, elem_of_nil; intros H;
    repeat destruct H as [H|H]; discriminate H || exact H.
Defined.

Lemma rename_keeps_plain_witness :
  filter plain (of_string " ( , ) ") = [] ∧ rename_col " ( , ) " = "".
Proof.
  assert (filter plain (of_string " ( , ) ") = []) as Hnone by (vm_compute; reflexivity).
  split; [exact Hnone|]. exact (proj2 (rename_keeps_plain " ( , ) ") Hnone).
Defined.

Lemma main_stops_witness :
  let msg := "Schema error: missing mandatory columns ['sex']" in
  let after :=
    main (H := no_text_numbers) (H0 := both) read_no_sex "http://url123.com"
      "result.csv" "result.parquet" start in
  (load_dataset read_no_sex "http://url123.com").2 = Some msg
  ∧ world after.1 = world start
  ∧ last (log after.1) = Some (ERROR, msg).
Proof.
  intros msg after.
  assert ((load_dataset read_no_sex "http://url123.com").2 = Some msg) as Hload
    by (vm_compute; reflexivity).
  split; [exact Hload|].
  exact (main_stops (H := no_text_numbers) (H0 := both) read_no_sex "http://url123.com"
           "result.csv" "result.parquet" start msg (or_introl Hload)).
Defined.

Lemma main_saves_witness :
  (load_dataset read_grid "http://url123.com").1 = Some grid
  ∧ (process_first_year_stats (H := no_text_numbers) grid).2.1 = Some grid_out
  ∧ main (H := no_text_numbers) (H0 := both) read_grid "http://url123.com"
      "result.csv" "result.parquet" start
    = save_outputs (H := both) (set_columns grid_out (map rename_col (columns grid_out)))
        "result.csv" "result.parquet"
        (mkState (world start)
           (log start
            ++ [(INFO, "Dataset loaded successfully with "
                       +:+ str_of_Z (Z.of_nat (length (rows grid))) +:+ " rows and "
                       +:+ str_of_Z (Z.of_nat (length (columns grid))) +:+ " columns");
                (INFO, "Headers renamed successfully")])).
Proof.
  assert ((process_first_year_stats (H := no_text_numbers) grid).2.1 = Some grid_out)
    as Hrun by (by rewrite grid_run).
  split; [reflexivity|]. split; [exact Hrun|].
  exact (main_saves (H := no_text_numbers) (H0 := both) read_grid "http://url123.com"
           "result.csv" "result.parquet" start grid grid_out eq_refl Hrun).
Defined.
End ExtraWitnesses.
